(** * SimpleBatchingServer: a model of [async_exercises/test_async_server.py]

    The server is an asyncio program: coroutines run one at a time on a single
    thread and give up control only at an [await] that really suspends.  The
    code between two suspension points is therefore one atomic block, and the
    model has one state transformer for each block, written in a small
    state-and-exception monad that follows the Python statement by statement.
    The event loop is a labelled transition system: an action names the
    coroutine that runs next (or lets the clock advance).

    asyncio facts the model relies on:
    - [asyncio.Lock.acquire] returns without suspending when the lock is
      free; when it is taken the caller would suspend (the block is not
      enabled, outcome [Blocked]).
    - [asyncio.Event.wait] returns without suspending when the event is set.
    - [asyncio.sleep(n)] suspends until the loop clock has advanced by [n].
    - [asyncio.create_task] starts the coroutine on a later turn of the loop;
      [_delayed_processing] has nothing before its [sleep(1)], so a created
      timer is recorded directly with its wake-up time. *)

From stdpp Require Import base list sets strings.
From Stdlib Require Import Lia.

Set Warnings "-clear-no-such-hyp".

Open Scope string_scope.
Open Scope list_scope.
Open Scope nat_scope.

(** ** Data *)

(** A task is a Python dict shared between the submitting call, the queue and
    the batch: the model keeps the dicts in a heap and passes references. *)
Abbreviation ref := nat (only parsing).

(** A value returned by [time.time()].  The wall clock is not the loop clock
    that [asyncio.sleep] goes by, and the program never reads a task's
    ["time"] again: the model keeps a reading as an uninterpreted value,
    named by the dict it was taken for, and knows nothing about its size. *)
Inductive wall_time :=
| TimeTime (reading : nat).

Record task := Task {
  task_id : string;
  task_done_event : bool;
  task_time : wall_time;
  task_result : option string }.

(** [process_batch], suspended at one of its two awaits, or cancelled. *)
Inductive consumer :=
| PWait                                  (* line 49: needs_processing.wait() *)
| PSleep (wake_at : nat) (batch : list ref)  (* line 62: asyncio.sleep(2) *)
| PCancelled.                            (* line 109: processor_task.cancel() *)

(** [_delayed_processing], suspended in [sleep(1)], or finished.  [owner] is a
    ghost annotation: the task whose enqueue created the timer (the coroutine
    itself takes no argument). *)
Inductive delayed :=
| DSleep (wake_at : nat) (owner : ref)
| DDone.

(** One call of [add_request]. *)
Inductive call :=
| AddWait (t : ref)                      (* line 37: task["done_event"].wait() *)
| AddReturned (v : option string)        (* line 38 *)
| AddRaised (msg : string).              (* line 16 *)

(** Ghost history of the statements the properties speak about, newest first.
    Each entry records what the statement saw when it ran. *)
Inductive event :=
| EvAppend (t : ref) (len_before : nat) (locked : bool)  (* self.queue.append(task) *)
| EvSet                                                  (* self.needs_processing.set() *)
| EvBatch (batch : list ref) (locked : bool)             (* lines 57-58 *)
| EvResult (t : ref) (v : string)                        (* task["result"] = ... *)
| EvDone (t : ref)                                       (* task["done_event"].set() *)
| EvReturn (t : ref) (v : option string).                (* return task["result"] *)

(** The server object ([queue], [queue_lock], [needs_processing],
    [processing]), the heap of task dicts, the coroutines of the event loop,
    the loop clock and the ghost history. *)
Record world := World {
  queue : list ref;
  queue_lock : bool;
  needs_processing : bool;
  processing : bool;
  heap : list task;
  processor : consumer;
  timers : list delayed;
  calls : list call;
  clock : nat;
  log : list event }.

Definition set_queue (q : list ref) (w : world) : world :=
  World q (queue_lock w) (needs_processing w) (processing w) (heap w)
        (processor w) (timers w) (calls w) (clock w) (log w).
Definition set_queue_lock (b : bool) (w : world) : world :=
  World (queue w) b (needs_processing w) (processing w) (heap w)
        (processor w) (timers w) (calls w) (clock w) (log w).
Definition set_needs_processing (b : bool) (w : world) : world :=
  World (queue w) (queue_lock w) b (processing w) (heap w)
        (processor w) (timers w) (calls w) (clock w) (log w).
Definition set_heap (h : list task) (w : world) : world :=
  World (queue w) (queue_lock w) (needs_processing w) (processing w) h
        (processor w) (timers w) (calls w) (clock w) (log w).
Definition set_processor (p : consumer) (w : world) : world :=
  World (queue w) (queue_lock w) (needs_processing w) (processing w) (heap w)
        p (timers w) (calls w) (clock w) (log w).
Definition set_timers (ts : list delayed) (w : world) : world :=
  World (queue w) (queue_lock w) (needs_processing w) (processing w) (heap w)
        (processor w) ts (calls w) (clock w) (log w).
Definition set_calls (cs : list call) (w : world) : world :=
  World (queue w) (queue_lock w) (needs_processing w) (processing w) (heap w)
        (processor w) (timers w) cs (clock w) (log w).
Definition set_clock (n : nat) (w : world) : world :=
  World (queue w) (queue_lock w) (needs_processing w) (processing w) (heap w)
        (processor w) (timers w) (calls w) n (log w).
Definition record (e : event) (w : world) : world :=
  World (queue w) (queue_lock w) (needs_processing w) (processing w) (heap w)
        (processor w) (timers w) (calls w) (clock w) (e :: log w).

(** [SimpleBatchingServer()] with [process_batch] started and waiting. *)
Definition init : world :=
  World [] false false false [] PWait [] [] 0 [].

(** ** The monad of an atomic block *)

Inductive outcome (A : Type) :=
| Ok (a : A) (w : world)
| Raised (msg : string) (w : world)
| Blocked.
Arguments Ok {A} a w.
Arguments Raised {A} msg w.
Arguments Blocked {A}.

Definition M (A : Type) : Type := world -> outcome A.

Definition ret {A} (a : A) : M A := fun w => Ok a w.
Definition raise {A} (msg : string) : M A := fun w => Raised msg w.
Definition bind {A B} (m : M A) (k : A -> M B) : M B := fun w =>
  match m w with
  | Ok a w' => k a w'
  | Raised msg w' => Raised msg w'
  | Blocked => Blocked
  end.
Definition get {A} (f : world -> A) : M A := fun w => Ok (f w) w.
Definition modify (f : world -> world) : M unit := fun w => Ok tt (f w).

Declare Scope block_scope.
Delimit Scope block_scope with block.
Notation "'let!' x ':=' m 'in' k" := (bind m (fun x => k))
  (at level 10, x name, m at level 100, k at level 200) : block_scope.
Notation "m '>>' k" := (bind m (fun _ => k))
  (at level 100, k at level 200, right associativity) : block_scope.

(** [async with self.queue_lock:] around a body without awaits.  The lock is
    released on the way out, also when the body raises. *)
Definition with_lock {A} (body : M A) : M A := fun w =>
  if queue_lock w then Blocked
  else match body (set_queue_lock true w) with
       | Ok a w' => Ok a (set_queue_lock false w')
       | Raised msg w' => Raised msg (set_queue_lock false w')
       | Blocked => Blocked
       end.

(** The dict literal of lines 19-24: a new object on the heap.  Its ["time"]
    is what [time.time()] returns at that moment. *)
Definition new_task (request_id : string) : M ref := fun w =>
  let t := length (heap w) in
  Ok t (set_heap (heap w ++ [Task request_id false (TimeTime t) None]) w).

Definition queue_append (t : ref) : M unit := fun w =>
  Ok tt (record (EvAppend t (length (queue w)) (queue_lock w))
                (set_queue (queue w ++ [t]) w)).

Definition needs_processing_set : M unit :=
  modify (fun w => record EvSet (set_needs_processing true w)).

Definition needs_processing_clear : M unit :=
  modify (set_needs_processing false).

(** A dict access through a dangling reference has no Python counterpart; the
    block is stuck there (never reached, see [wf_refs]). *)
Definition deref (t : ref) : M task := fun w =>
  match heap w !! t with
  | Some tk => Ok tk w
  | None => Blocked
  end.

Definition set_result (t : ref) (v : string) : M unit := fun w =>
  match heap w !! t with
  | Some tk =>
      Ok tt (record (EvResult t v)
               (set_heap (<[t := Task (task_id tk) (task_done_event tk) (task_time tk) (Some v)]> (heap w)) w))
  | None => Blocked
  end.

Definition done_event_set (t : ref) : M unit := fun w =>
  match heap w !! t with
  | Some tk =>
      Ok tt (record (EvDone t)
               (set_heap (<[t := Task (task_id tk) true (task_time tk) (task_result tk)]> (heap w)) w))
  | None => Blocked
  end.

Section Server.

(** Clock ticks per time unit: [asyncio.sleep(n)] lasts [n * second] ticks. *)
Variable second : nat.

Definition MAX_QUEUE_SIZE : nat := 3.
Definition MAX_BATCH_SIZE : nat := 2.

Open Scope block_scope.

(** [asyncio.create_task(self._delayed_processing())]: the new coroutine runs
    to its [await asyncio.sleep(1)]. *)
Definition create_task_delayed_processing (owner : ref) : M unit :=
  modify (fun w => set_timers (timers w ++ [DSleep (clock w + 1 * second) owner]) w).

(** [add_request], lines 14-34: from the call to the wait on [done_event]. *)
Definition add_request_enter (request_id : string) : M ref :=
  with_lock (
    let! n := get (fun w => length (queue w)) in
    if 3 <=? n then raise "Server too busy!"
    else
      let! task := new_task request_id in
      queue_append task >>
      let! n := get (fun w => length (queue w)) in
      (if 2 <=? n then needs_processing_set
       else if n =? 1 then create_task_delayed_processing task
       else ret tt) >>
      ret task).

(** [add_request], lines 37-38: resumed once [done_event] is set. *)
Definition add_request_resume (t : ref) : M (option string) :=
  let! tk := deref t in
  if task_done_event tk
  then modify (record (EvReturn t (task_result tk))) >> ret (task_result tk)
  else fun _ => Blocked.

(** [_delayed_processing], lines 43-44: after the sleep. *)
Definition delayed_processing_resume : M unit :=
  let! q := get queue in
  match q with
  | [] => ret tt
  | _ :: _ => needs_processing_set
  end.

(** [process_batch], lines 50-62: from the return of [wait()] to the next
    suspension.  On [continue] the event has just been cleared, so [wait()]
    suspends. *)
Definition process_batch_wake : M consumer :=
  needs_processing_clear >>
  let! taken := with_lock (
    let! q := get queue in
    match q with
    | [] => ret None
    | _ :: _ =>
        let batch := take 2 q in
        modify (set_queue (drop 2 q)) >>
        let! l := get queue_lock in
        modify (record (EvBatch batch l)) >>
        ret (Some batch)
    end) in
  match taken with
  | None => ret PWait
  | Some batch =>
      let! now := get clock in
      ret (PSleep (now + 2 * second) batch)
  end.

(** Lines 65-68: the loop over the batch. *)
Fixpoint complete (batch : list ref) : M unit :=
  match batch with
  | [] => ret tt
  | t :: rest =>
      let! tk := deref t in
      set_result t ("Processed " +:+ task_id tk) >>
      done_event_set t >>
      complete rest
  end.

(** [process_batch], from the return of [sleep(2)]: lines 65-68, then line 49
    again, which falls through when the event is set. *)
Definition process_batch_resume (batch : list ref) : M consumer :=
  complete batch >>
  let! woken := get needs_processing in
  if woken then process_batch_wake else ret PWait.

Close Scope block_scope.

(** ** The event loop *)

Inductive action :=
| Submit (request_id : string)  (* a client calls add_request *)
| Resume (c : nat)              (* call [c] returns from done_event.wait() *)
| Fire (k : nat)                (* timer [k] returns from sleep(1) *)
| Consume                       (* process_batch returns from its await *)
| Cancel                        (* processor_task.cancel() *)
| Tick.                         (* the clock advances by one tick *)

Definition step (a : action) (w : world) : option world :=
  match a with
  | Submit request_id =>
      match add_request_enter request_id w with
      | Ok t w' => Some (set_calls (calls w' ++ [AddWait t]) w')
      | Raised msg w' => Some (set_calls (calls w' ++ [AddRaised msg]) w')
      | Blocked => None
      end
  | Resume c =>
      match calls w !! c with
      | Some (AddWait t) =>
          match add_request_resume t w with
          | Ok v w' => Some (set_calls (<[c := AddReturned v]> (calls w')) w')
          | _ => None
          end
      | _ => None
      end
  | Fire k =>
      match timers w !! k with
      | Some (DSleep wake_at _) =>
          if wake_at <=? clock w then
            match delayed_processing_resume w with
            | Ok _ w' => Some (set_timers (<[k := DDone]> (timers w')) w')
            | _ => None
            end
          else None
      | _ => None
      end
  | Consume =>
      match processor w with
      | PWait =>
          if needs_processing w then
            match process_batch_wake w with
            | Ok p w' => Some (set_processor p w')
            | _ => None
            end
          else None
      | PSleep wake_at batch =>
          if wake_at <=? clock w then
            match process_batch_resume batch w with
            | Ok p w' => Some (set_processor p w')
            | _ => None
            end
          else None
      | PCancelled => None
      end
  | Cancel =>
      match processor w with
      | PCancelled => None
      | _ => Some (set_processor PCancelled w)
      end
  | Tick => Some (set_clock (S (clock w)) w)
  end.

Fixpoint exec (sched : list action) (w : world) : option world :=
  match sched with
  | [] => Some w
  | a :: rest =>
      match step a w with
      | Some w' => exec rest w'
      | None => None
      end
  end.

End Server.

(** ** What each block computes *)

#[local] Arguments Nat.leb : simpl never.

Section Blocks.

Variable second : nat.

(** The dict of [t] after lines 66-67. *)
Definition finished (tk : task) : task :=
  Task (task_id tk) true (task_time tk) (Some ("Processed " +:+ task_id tk)).

Definition finish (t : ref) (h : list task) : list task :=
  match h !! t with
  | Some tk => <[t := finished tk]> h
  | None => h
  end.

Definition finish_events (h : list task) (t : ref) : list event :=
  match h !! t with
  | Some tk => [EvDone t; EvResult t ("Processed " +:+ task_id tk)]
  | None => []
  end.

Fixpoint finish_all (batch : list ref) (h : list task) : list task :=
  match batch with
  | [] => h
  | t :: rest => finish_all rest (finish t h)
  end.

Fixpoint finish_log (batch : list ref) (h : list task) (lg : list event) : list event :=
  match batch with
  | [] => lg
  | t :: rest => finish_log rest (finish t h) (finish_events h t ++ lg)
  end.

(** The world after a submission that passed the capacity check. *)
Definition accepted (request_id : string) (w : world) : world :=
  let t := length (heap w) in
  let n := length (queue w) in
  World (queue w ++ [t]) false
        (if 1 <=? n then true else needs_processing w)
        (processing w)
        (heap w ++ [Task request_id false (TimeTime t) None])
        (processor w)
        (if 1 <=? n then timers w else timers w ++ [DSleep (clock w + 1 * second) t])
        (calls w ++ [AddWait t])
        (clock w)
        ((if 1 <=? n then [EvSet] else []) ++ EvAppend t n true :: log w).

Definition rejected (w : world) : world :=
  set_calls (calls w ++ [AddRaised "Server too busy!"]) w.

(** The world after the consumer has gone through lines 50-62. *)
Definition woken (w : world) : world :=
  match queue w with
  | [] => set_processor PWait (set_needs_processing false w)
  | _ :: _ =>
      World (drop 2 (queue w)) false false (processing w) (heap w)
            (PSleep (clock w + 2 * second) (take 2 (queue w)))
            (timers w) (calls w) (clock w)
            (EvBatch (take 2 (queue w)) true :: log w)
  end.

(** The world after lines 65-68. *)
Definition completed (batch : list ref) (w : world) : world :=
  World (queue w) (queue_lock w) (needs_processing w) (processing w)
        (finish_all batch (heap w)) (processor w) (timers w) (calls w) (clock w)
        (finish_log batch (heap w) (log w)).

Definition fired (k : nat) (w : world) : world :=
  World (queue w) (queue_lock w)
        (match queue w with [] => needs_processing w | _ :: _ => true end)
        (processing w) (heap w) (processor w) (<[k := DDone]> (timers w))
        (calls w) (clock w)
        (match queue w with [] => log w | _ :: _ => EvSet :: log w end).

Definition returned (c : nat) (t : ref) (v : option string) (w : world) : world :=
  World (queue w) (queue_lock w) (needs_processing w) (processing w) (heap w)
        (processor w) (timers w) (<[c := AddReturned v]> (calls w)) (clock w)
        (EvReturn t v :: log w).

Lemma world_eta w :
  World (queue w) (queue_lock w) (needs_processing w) (processing w) (heap w)
        (processor w) (timers w) (calls w) (clock w) (log w) = w.
Proof. by destruct w. Qed.

Lemma add_request_enter_full request_id w :
  queue_lock w = false -> 3 <= length (queue w) ->
  add_request_enter second request_id w = Raised "Server too busy!" w.
Proof.
  intros Hl Hn. destruct w; simpl in *; subst.
  destruct queue0 as [|a [|b [|c q]]]; simpl in Hn; try lia. reflexivity.
Qed.

Lemma add_request_enter_ok request_id w :
  queue_lock w = false -> length (queue w) < 3 ->
  exists w', add_request_enter second request_id w = Ok (length (heap w)) w' /\
    set_calls (calls w' ++ [AddWait (length (heap w))]) w' = accepted request_id w.
Proof.
  intros Hl Hn. destruct w as [q l f p h pr ts cs ck lg]; simpl in *; subst.
  destruct q as [|a [|b [|c q]]]; simpl in Hn; try lia;
    eexists; (split; [reflexivity|done]).
Qed.

Lemma step_submit_full request_id w :
  queue_lock w = false -> 3 <= length (queue w) ->
  step second (Submit request_id) w = Some (rejected w).
Proof.
  intros Hl Hn. simpl. by rewrite add_request_enter_full.
Qed.

Lemma step_submit_ok request_id w :
  queue_lock w = false -> length (queue w) < 3 ->
  step second (Submit request_id) w = Some (accepted request_id w).
Proof.
  intros Hl Hn. simpl.
  destruct (add_request_enter_ok request_id w Hl Hn) as (w' & -> & <-). done.
Qed.

Lemma process_batch_wake_eq w :
  queue_lock w = false ->
  exists p w', process_batch_wake second w = Ok p w' /\ set_processor p w' = woken w.
Proof.
  intros Hl. destruct w as [q l f p h pr ts cs ck lg]; simpl in *; subst.
  unfold process_batch_wake, with_lock, bind, get, woken; simpl.
  destruct q; simpl; eauto.
Qed.

Lemma bind_Ok {A B} (m : M A) (k : A -> M B) w a w' :
  m w = Ok a w' -> bind m k w = k a w'.
Proof. unfold bind. by intros ->. Qed.

Lemma complete_eq batch : forall w,
  (forall t, t ∈ batch -> t < length (heap w)) ->
  complete batch w = Ok tt (completed batch w).
Proof.
  induction batch as [|t rest IH]; intros w Hb.
  - simpl. unfold ret, completed. simpl. by rewrite world_eta.
  - assert (Ht : t < length (heap w)) by (apply Hb; left).
    destruct (lookup_lt_is_Some_2 _ _ Ht) as [tk Htk].
    simpl.
    erewrite bind_Ok; [|unfold deref; by rewrite Htk].
    erewrite bind_Ok; [|unfold set_result; by rewrite Htk].
    erewrite bind_Ok;
      [|unfold done_event_set; simpl; by rewrite list_lookup_insert_eq].
    rewrite IH.
    + unfold completed; simpl. unfold finish, finish_events. rewrite Htk.
      rewrite list_insert_insert_eq. done.
    + intros t' Ht'. simpl. rewrite !length_insert. apply Hb. by right.
Qed.

End Blocks.

(** ** Reading the history *)

(** The requests removed from the queue so far, oldest first. *)
Fixpoint batched (lg : list event) : list ref :=
  match lg with
  | [] => []
  | EvBatch b _ :: l => batched l ++ b
  | _ :: l => batched l
  end.

(** The requests appended to the queue so far, oldest first. *)
Fixpoint appended (lg : list event) : list ref :=
  match lg with
  | [] => []
  | EvAppend t _ _ :: l => appended l ++ [t]
  | _ :: l => appended l
  end.

(** The tasks whose result slot was written, one entry for each write. *)
Fixpoint result_refs (lg : list event) : list ref :=
  match lg with
  | [] => []
  | EvResult t _ :: l => t :: result_refs l
  | _ :: l => result_refs l
  end.

(** Every completion signal in the history comes after a write of the same
    task's result slot. *)
Fixpoint log_ordered (lg : list event) : Prop :=
  match lg with
  | [] => True
  | EvDone t :: l => (exists v, EvResult t v ∈ l) /\ log_ordered l
  | _ :: l => log_ordered l
  end.

(** The batch the consumer is processing. *)
Definition inflight (w : world) : list ref :=
  match processor w with
  | PSleep _ batch => batch
  | _ => []
  end.

Lemma result_refs_elem lg t :
  t ∈ result_refs lg <-> exists v, EvResult t v ∈ lg.
Proof.
  induction lg as [|e l IH]; simpl.
  - split; [by intros ?%elem_of_nil | by intros [? ?%elem_of_nil]].
  - destruct e; rewrite ?elem_of_cons, IH; setoid_rewrite elem_of_cons;
      naive_solver.
Qed.

Section Finish.

Implicit Types (h : list task) (b : list ref) (lg : list event).

Lemma finish_length t h : length (finish t h) = length h.
Proof. unfold finish. destruct (h !! t); [apply length_insert | done]. Qed.

Lemma finish_lookup t h t' :
  finish t h !! t' = if decide (t' = t) then finished <$> h !! t' else h !! t'.
Proof.
  unfold finish. case_decide as E.
  - subst. destruct (h !! t) as [tk|] eqn:Ht; simpl; [|by rewrite Ht].
    apply list_lookup_insert_eq. by eapply lookup_lt_Some.
  - destruct (h !! t); [|done]. by apply list_lookup_insert_ne.
Qed.

Lemma finished_idemp tk : finished (finished tk) = finished tk.
Proof. done. Qed.

Lemma finish_all_length b : forall h, length (finish_all b h) = length h.
Proof.
  induction b as [|t b IH]; intros h; simpl; [done|].
  by rewrite IH, finish_length.
Qed.

Lemma finish_all_lookup b : forall h t',
  finish_all b h !! t' = if decide (t' ∈ b) then finished <$> h !! t' else h !! t'.
Proof.
  induction b as [|t b IH]; intros h t'; simpl.
  - done.
  - rewrite IH, finish_lookup.
    repeat case_decide; subst; try done; try (exfalso; set_solver).
    destruct (h !! t); simpl; [|done]. by rewrite finished_idemp.
Qed.

(** The entries the loop over the batch adds to the history. *)
Lemma finish_log_elem b : forall h lg e,
  e ∈ finish_log b h lg <->
  e ∈ lg \/ exists t tk, t ∈ b /\ h !! t = Some tk /\
               (e = EvDone t \/ e = EvResult t ("Processed " +:+ task_id tk)).
Proof.
  induction b as [|t b IH]; intros h lg e; simpl.
  - split; [by left | intros [?|(?&?&?%elem_of_nil&_)]; done].
  - rewrite IH, elem_of_app. unfold finish_events. split.
    + intros [[Hin|Hin]|(t'&tk&Hin&Hl&He)].
      * destruct (h !! t) as [tk|] eqn:Ht; [|by apply elem_of_nil in Hin].
        right. exists t, tk. split; [left|split; [done|]].
        apply elem_of_cons in Hin as [->|Hin]; [by left|].
        apply elem_of_cons in Hin as [->|Hin]; [by right|].
        by apply elem_of_nil in Hin.
      * by left.
      * right. rewrite finish_lookup in Hl.
        case_decide; subst.
        -- destruct (h !! t) as [tk0|] eqn:Ht; simplify_eq/=.
           exists t, tk0. split; [left|done].
        -- exists t', tk. split; [by right|done].
    + intros [Hin|(t'&tk&Hin&Hl&He)]; [left; by right|].
      apply elem_of_cons in Hin as [->|Hin].
      * left; left. rewrite Hl. destruct He as [->| ->]; [left | right; left].
      * right. destruct (decide (t' = t)) as [->|Hne].
        -- exists t, (finished tk). rewrite finish_lookup, decide_True, Hl by done.
           done.
        -- exists t', tk. rewrite finish_lookup, decide_False by done. done.
Qed.

Lemma finish_log_batched b : forall h lg,
  batched (finish_log b h lg) = batched lg.
Proof.
  induction b as [|t b IH]; intros h lg; simpl; [done|].
  rewrite IH. unfold finish_events. by destruct (h !! t).
Qed.

Lemma finish_log_appended b : forall h lg,
  appended (finish_log b h lg) = appended lg.
Proof.
  induction b as [|t b IH]; intros h lg; simpl; [done|].
  rewrite IH. unfold finish_events. by destruct (h !! t).
Qed.

Lemma finish_log_result_refs b : forall h lg,
  (forall t, t ∈ b -> t < length h) ->
  result_refs (finish_log b h lg) = reverse b ++ result_refs lg.
Proof.
  induction b as [|t b IH]; intros h lg Hb; simpl; [done|].
  rewrite IH.
  - unfold finish_events.
    destruct (lookup_lt_is_Some_2 h t) as [tk ->]; [apply Hb; left|].
    simpl. by rewrite reverse_cons, <- app_assoc.
  - intros t' Ht'. rewrite finish_length. apply Hb. by right.
Qed.

Lemma finish_log_ordered b : forall h lg,
  log_ordered lg -> log_ordered (finish_log b h lg).
Proof.
  induction b as [|t b IH]; intros h lg Hlg; simpl; [done|].
  apply IH. unfold finish_events. destruct (h !! t); simpl; [|done].
  split; [|done]. eexists. left.
Qed.

End Finish.

(** ** The invariant of the reachable worlds *)

Section Invariant.

Variable second : nat.

Record wf (w : world) : Prop := Wf {
  wf_lock : queue_lock w = false;
  wf_capacity : length (queue w) <= MAX_QUEUE_SIZE;
  wf_batch_size : length (inflight w) <= MAX_BATCH_SIZE;
  wf_fifo : batched (log w) ++ queue w = seq 0 (length (heap w));
  wf_inflight : exists pre, batched (log w) = pre ++ inflight w;
  wf_pending : forall t, t ∈ inflight w ++ queue w ->
    exists tk, heap w !! t = Some tk /\ task_done_event tk = false;
  wf_heap : forall t tk, heap w !! t = Some tk ->
    task_result tk =
      if task_done_event tk then Some ("Processed " +:+ task_id tk) else None;
  wf_written : forall t tk, heap w !! t = Some tk -> task_done_event tk = true ->
    EvResult t ("Processed " +:+ task_id tk) ∈ log w;
  wf_results : forall t v, EvResult t v ∈ log w ->
    exists tk, heap w !! t = Some tk /\ task_done_event tk = true /\
               task_result tk = Some v;
  wf_results_once : NoDup (result_refs (log w));
  wf_ordered : log_ordered (log w);
  wf_appends : forall t n l, EvAppend t n l ∈ log w ->
    l = true /\ n < MAX_QUEUE_SIZE;
  wf_batches : forall b l, EvBatch b l ∈ log w ->
    l = true /\ 0 < length b <= MAX_BATCH_SIZE;
  wf_returns : forall t v, EvReturn t v ∈ log w ->
    exists s, v = Some s /\ EvResult t s ∈ log w;
  wf_calls : forall c t, calls w !! c = Some (AddWait t) -> t < length (heap w);
  wf_sleep : forall d b, processor w = PSleep d b -> d <= clock w + 2 * second;
  wf_timers : forall k d o, timers w !! k = Some (DSleep d o) ->
    d <= clock w + 1 * second /\ o < length (heap w) /\
    forall i, queue w !! S i <> Some o;
  wf_arrivals : appended (log w) = seq 0 (length (heap w)) }.

Ltac fields :=
  cbn [queue queue_lock needs_processing processing heap processor timers
       calls clock log batched appended result_refs log_ordered].

Ltac elems H :=
  repeat (apply elem_of_cons in H as [H|H]; [simplify_eq|]).

Lemma wf_init : wf init.
Proof.
  constructor; simpl; unfold MAX_QUEUE_SIZE, MAX_BATCH_SIZE; try done; try lia.
  - by exists [].
  - by intros t ?%elem_of_nil.
  - by intros t v ?%elem_of_nil.
  - constructor.
  - by intros t n l ?%elem_of_nil.
  - by intros b l ?%elem_of_nil.
  - by intros t v ?%elem_of_nil.
Qed.

Lemma wf_rejected w : wf w -> wf (rejected w).
Proof.
  intros []. constructor; simpl; try done.
  intros c t Hc. apply lookup_app_Some in Hc as [Hc|[_ Hc]]; [eauto|].
  destruct (c - length (calls w)) as [|[|?]]; simplify_eq/=.
Qed.

Lemma wf_accepted request_id w :
  wf w -> length (queue w) < 3 -> wf (accepted second request_id w).
Proof.
  intros [] Hn. destruct w as [q l f p h pr ts cs ck lg].
  unfold inflight, MAX_QUEUE_SIZE, MAX_BATCH_SIZE in *. simpl in *. subst l.
  assert (Hnew : forall x, (h ++ [x]) !! length h = Some x).
  { intros x. rewrite lookup_app_r, Nat.sub_diag by lia. done. }
  assert (Hlog : forall e, (exists t v, e = EvResult t v) \/
                           (exists t v, e = EvReturn t v) \/
                           (exists b l, e = EvBatch b l) ->
            e ∈ (if 1 <=? length q then [EvSet] else []) ++
                 EvAppend (length h) (length q) true :: lg -> e ∈ lg).
  { intros e He Hin. apply elem_of_app in Hin as [Hin|Hin].
    - destruct (1 <=? length q); [elems Hin|]; try apply elem_of_nil in Hin;
        naive_solver.
    - elems Hin; naive_solver. }
  assert (Hb : batched ((if 1 <=? length q then [EvSet] else []) ++
                 EvAppend (length h) (length q) true :: lg) = batched lg).
  { by destruct (1 <=? length q). }
  constructor; unfold inflight, MAX_QUEUE_SIZE, MAX_BATCH_SIZE; simpl.
  - done.
  - rewrite length_app. simpl. lia.
  - done.
  - rewrite Hb, length_app, app_assoc, wf_fifo0. simpl.
    by rewrite seq_app.
  - by rewrite Hb.
  - intros t Ht. rewrite app_assoc in Ht. apply elem_of_app in Ht as [Ht|Ht].
    + destruct (wf_pending0 t Ht) as (tk & Htk & Hd). exists tk. split; [|done].
      rewrite lookup_app_l; [done|]. by eapply lookup_lt_Some.
    + apply list_elem_of_singleton in Ht as ->. eexists. rewrite Hnew. done.
  - intros t tk Ht. apply lookup_app_Some in Ht as [Ht|[_ Ht]]; [eauto|].
    destruct (t - length h) as [|[|?]]; simplify_eq/=. done.
  - intros t tk Ht Hd. apply lookup_app_Some in Ht as [Ht|[_ Ht]].
    + apply elem_of_app. right. right. eauto.
    + destruct (t - length h) as [|[|?]]; simplify_eq/=.
  - intros t v Hin. apply Hlog in Hin; [|eauto].
    destruct (wf_results0 t v Hin) as (tk & Htk & Hd). exists tk. split; [|done].
    rewrite lookup_app_l; [done|]. by eapply lookup_lt_Some.
  - by destruct (1 <=? length q).
  - by destruct (1 <=? length q).
  - intros t n l Hin. apply elem_of_app in Hin as [Hin|Hin].
    + destruct (1 <=? length q); [elems Hin|]; by apply elem_of_nil in Hin.
    + elems Hin; eauto.
  - intros b l Hin. apply Hlog in Hin; eauto 10.
  - intros t v Hin. apply Hlog in Hin; [|eauto 10].
    destruct (wf_returns0 t v Hin) as (s & -> & Hs). exists s. split; [done|].
    apply elem_of_app. right. by right.
  - intros c t Hc. rewrite length_app. simpl.
    apply lookup_app_Some in Hc as [Hc|[_ Hc]].
    + apply wf_calls0 in Hc. lia.
    + destruct (c - length cs) as [|[|?]]; simplify_eq/=. lia.
  - done.
  - intros k d o Hk. rewrite length_app. simpl.
    assert (Hold : ts !! k = Some (DSleep d o) ->
       d <= ck + (second + 0) /\ o < length h + 1 /\
       forall i, (q ++ [length h]) !! S i <> Some o).
    { intros Hk'. destruct (wf_timers0 k d o Hk') as (Hd & Ho & Hq).
      split; [done|]. split; [lia|]. intros i Hi.
      apply lookup_app_Some in Hi as [Hi|[_ Hi]]; [by eapply Hq|].
      destruct (S i - length q) as [|[|?]]; simplify_eq/=. lia. }
    destruct q as [|a q]; simpl in Hk; [|by apply Hold].
    apply lookup_app_Some in Hk as [Hk|[_ Hk]]; [by apply Hold|].
    destruct (k - length ts) as [|[|?]]; simplify_eq/=.
    split; [lia|]. split; [lia|]. by intros i.
  - rewrite length_app, seq_app. simpl. rewrite <- wf_arrivals0.
    by destruct (1 <=? length q).
Qed.

Lemma NoDup_reverse_2 {A} (l : list A) : NoDup l -> NoDup (reverse l).
Proof.
  induction 1 as [|x l Hx Hl IH]; [constructor|].
  rewrite reverse_cons. apply NoDup_app. split; [done|]. split.
  - intros y Hy Hy'%list_elem_of_singleton. subst.
    rewrite elem_of_reverse in Hy. by apply Hx.
  - apply NoDup_singleton.
Qed.

Lemma wf_NoDup w : wf w -> NoDup (inflight w ++ queue w).
Proof.
  intros []. destruct wf_inflight0 as [pre Hpre].
  pose proof (NoDup_seq 0 (length (heap w))) as Hnd.
  rewrite <- wf_fifo0, Hpre, <- app_assoc in Hnd.
  by apply NoDup_app in Hnd as (_ & _ & Hnd).
Qed.

Lemma wf_refs w t : wf w -> t ∈ inflight w ++ queue w -> t < length (heap w).
Proof.
  intros Hwf Ht. destruct (wf_pending _ Hwf t Ht) as (tk & Htk & _).
  by eapply lookup_lt_Some.
Qed.

Lemma wf_woken w : wf w -> inflight w = [] -> wf (woken second w).
Proof.
  intros [] Hi. destruct w as [q l f p h pr ts cs ck lg].
  unfold woken, inflight, MAX_QUEUE_SIZE, MAX_BATCH_SIZE in *. simpl in *.
  subst l. rewrite Hi in *. clear Hi.
  destruct q as [|a q].
  { constructor; unfold inflight, MAX_QUEUE_SIZE, MAX_BATCH_SIZE; simpl;
      try done; try lia. }
  remember (a :: q) as Q eqn:HQ.
  assert (HQ' : 0 < length Q) by (subst Q; simpl; lia). clear HQ.
  constructor; unfold inflight, MAX_QUEUE_SIZE, MAX_BATCH_SIZE; fields.
  - done.
  - rewrite length_drop. lia.
  - rewrite length_take. lia.
  - by rewrite <- app_assoc, take_drop.
  - by exists (batched lg).
  - intros t Ht. rewrite take_drop in Ht. by apply wf_pending0.
  - done.
  - intros t tk Ht Hd. right. eauto.
  - intros t v Hin. elems Hin. eauto.
  - done.
  - done.
  - intros t n l Hin. elems Hin. eauto.
  - intros b l Hin. elems Hin; [|eauto].
    split; [done|]. rewrite length_take. lia.
  - intros t v Hin. elems Hin.
    destruct (wf_returns0 t v Hin) as (s & -> & Hs). exists s. split; [done|].
    by right.
  - done.
  - intros d b Hd. simplify_eq. lia.
  - intros k d o Hk. destruct (wf_timers0 k d o Hk) as (Hd & Ho & Hq).
    split; [done|]. split; [done|]. intros i. rewrite lookup_drop. apply Hq.
  - done.
Qed.

Lemma wf_completed w d b :
  wf w -> processor w = PSleep d b -> wf (set_processor PWait (completed b w)).
Proof.
  intros Hwf Hp. pose proof (wf_NoDup _ Hwf) as Hnd.
  pose proof (wf_refs w) as Hrefs. specialize (fun t => Hrefs t Hwf).
  destruct Hwf. destruct w as [q l f p h pr ts cs ck lg].
  unfold inflight, MAX_QUEUE_SIZE, MAX_BATCH_SIZE in *. simpl in *. subst l pr.
  apply NoDup_app in Hnd as (Hndb & Hdisj & _).
  constructor; unfold inflight, MAX_QUEUE_SIZE, MAX_BATCH_SIZE; simpl.
  - done.
  - done.
  - lia.
  - by rewrite finish_log_batched, finish_all_length.
  - rewrite finish_log_batched. exists (batched lg). by rewrite app_nil_r.
  - intros t Ht. rewrite finish_all_lookup.
    rewrite decide_False by (intros Hb; by eapply Hdisj).
    apply wf_pending0. apply elem_of_app. by right.
  - intros t tk. rewrite finish_all_lookup. case_decide; [|by apply wf_heap0].
    destruct (h !! t); intros; simplify_eq/=. done.
  - intros t tk. rewrite finish_all_lookup, finish_log_elem. case_decide.
    + destruct (h !! t) as [tk0|] eqn:Ht; intros; simplify_eq/=.
      right. exists t, tk0. eauto.
    + intros. left. eauto.
  - intros t v. rewrite finish_all_lookup, finish_log_elem.
    intros [Hin|(t' & tk & Hin & Ht & [?|?])]; simplify_eq.
    + destruct (wf_results0 t v Hin) as (tk & Htk & Hd & Hr).
      rewrite Htk. case_decide; [|eauto]. simpl. eexists. split; [done|].
      simpl. split; [done|]. pose proof (wf_heap0 _ _ Htk) as Hh.
      rewrite Hd in Hh. congruence.
    + rewrite decide_True, Ht by done. simpl. eauto.
  - rewrite finish_log_result_refs.
    + apply NoDup_app. split; [by apply NoDup_reverse_2|]. split; [|done].
      intros t Ht Hv. rewrite elem_of_reverse in Ht.
      apply result_refs_elem in Hv as (v & Hv).
      destruct (wf_results0 t v Hv) as (tk & Htk & Hd & _).
      destruct (wf_pending0 t) as (tk' & Htk' & Hd').
      { apply elem_of_app. by left. }
      congruence.
    + intros t Ht. apply Hrefs. apply elem_of_app. by left.
  - by apply finish_log_ordered.
  - intros t n l. rewrite finish_log_elem.
    intros [Hin|(t' & tk & Hin & Ht & [?|?])]; simplify_eq. eauto.
  - intros b' l. rewrite finish_log_elem.
    intros [Hin|(t' & tk & Hin & Ht & [?|?])]; simplify_eq. eauto.
  - intros t v. rewrite finish_log_elem.
    intros [Hin|(t' & tk & Hin & Ht & [?|?])]; simplify_eq.
    destruct (wf_returns0 t v Hin) as (s & -> & Hs). exists s. split; [done|].
    apply finish_log_elem. by left.
  - intros c t Hc. rewrite finish_all_length. eauto.
  - done.
  - intros k d' o Hk. rewrite finish_all_length. eauto.
  - by rewrite finish_log_appended, finish_all_length.
Qed.

Lemma wf_fired k w : wf w -> wf (fired k w).
Proof.
  intros []. destruct w as [q l f p h pr ts cs ck lg].
  unfold inflight, MAX_QUEUE_SIZE, MAX_BATCH_SIZE in *. simpl in *. subst l.
  assert (Hlog : forall e, e <> EvSet ->
            e ∈ match q with [] => lg | _ :: _ => EvSet :: lg end -> e ∈ lg).
  { intros e He Hin. destruct q; [done|]. by elems Hin. }
  assert (Hlog' : forall e,
            e ∈ lg -> e ∈ match q with [] => lg | _ :: _ => EvSet :: lg end).
  { intros e Hin. destruct q; [done|]. by right. }
  constructor; unfold inflight, MAX_QUEUE_SIZE, MAX_BATCH_SIZE; simpl;
    try done; try (by destruct q).
  - intros t tk Ht Hd. eauto.
  - intros t v Hin%Hlog; eauto.
  - intros t n l Hin%Hlog; eauto.
  - intros b l Hin%Hlog; eauto.
  - intros t v Hin%Hlog; [|done].
    destruct (wf_returns0 t v Hin) as (s & -> & Hs). eauto.
  - intros k' d o Hk. apply list_lookup_insert_Some in Hk as [(?&?&?)|[_ Hk]];
      [done|eauto].
Qed.

Lemma wf_returned c t tk w :
  wf w -> heap w !! t = Some tk -> task_done_event tk = true ->
  wf (returned c t (task_result tk) w).
Proof.
  intros [] Ht Hd. destruct w as [q l f p h pr ts cs ck lg].
  unfold inflight, MAX_QUEUE_SIZE, MAX_BATCH_SIZE in *. simpl in *. subst l.
  constructor; unfold inflight, MAX_QUEUE_SIZE, MAX_BATCH_SIZE; simpl; try done.
  - intros t' tk' Ht' Hd'. right. eauto.
  - intros t' v Hin. elems Hin. eauto.
  - intros t' n l Hin. elems Hin. eauto.
  - intros b l Hin. elems Hin. eauto.
  - intros t' v Hin. apply elem_of_cons in Hin as [Hin|Hin].
    + simplify_eq. rewrite (wf_heap0 _ _ Ht), Hd. eexists. split; [done|].
      right. eauto.
    + destruct (wf_returns0 t' v Hin) as (s & -> & Hs). exists s.
      split; [done|]. by right.
  - intros c' t' Hc. apply list_lookup_insert_Some in Hc as [(?&?&?)|[_ Hc]];
      [done|eauto].
Qed.

Lemma wf_tick w : wf w -> wf (set_clock (S (clock w)) w).
Proof.
  intros []. constructor; simpl; try done.
  - intros d b Hp. apply wf_sleep0 in Hp. lia.
  - intros k d o Hk. destruct (wf_timers0 k d o Hk) as (Hd & Ho & Hq).
    split; [lia|done].
Qed.

Lemma wf_cancelled w : wf w -> wf (set_processor PCancelled w).
Proof.
  intros []. constructor; unfold inflight, MAX_BATCH_SIZE; simpl; try done.
  - lia.
  - exists (batched (log w)). by rewrite app_nil_r.
  - intros t Ht. apply wf_pending0. apply elem_of_app. by right.
Qed.

(** *** The steps, in closed form *)

Lemma step_submit request_id w :
  queue_lock w = false ->
  step second (Submit request_id) w =
    Some (if 3 <=? length (queue w) then rejected w
          else accepted second request_id w).
Proof.
  intros Hl. destruct (3 <=? length (queue w)) eqn:E.
  - apply Nat.leb_le in E. by apply step_submit_full.
  - apply Nat.leb_gt in E. by apply step_submit_ok.
Qed.

Lemma step_resume c w :
  step second (Resume c) w =
    match calls w !! c with
    | Some (AddWait t) =>
        match heap w !! t with
        | Some tk =>
            if task_done_event tk
            then Some (returned c t (task_result tk) w) else None
        | None => None
        end
    | _ => None
    end.
Proof.
  simpl. destruct (calls w !! c) as [[t| |]|]; try done.
  unfold add_request_resume, bind, deref.
  destruct (heap w !! t) as [tk|]; [|done].
  by destruct (task_done_event tk).
Qed.

Lemma step_fire k w :
  step second (Fire k) w =
    match timers w !! k with
    | Some (DSleep d _) => if d <=? clock w then Some (fired k w) else None
    | _ => None
    end.
Proof.
  simpl. destruct (timers w !! k) as [[d o|]|]; try done.
  destruct (d <=? clock w); [|done].
  destruct w as [q l f p h pr ts cs ck lg]. unfold fired. simpl.
  by destruct q.
Qed.

Lemma step_consume_wait w :
  queue_lock w = false -> processor w = PWait ->
  step second Consume w =
    if needs_processing w then Some (woken second w) else None.
Proof.
  intros Hl Hp. simpl. rewrite Hp. destruct (needs_processing w); [|done].
  destruct (process_batch_wake_eq second w Hl) as (p & w' & -> & <-). done.
Qed.

Lemma woken_set_processor p w :
  woken second (set_processor p w) = woken second w.
Proof. unfold woken. simpl. by destruct (queue w). Qed.

Lemma step_consume_sleep d b w :
  wf w -> processor w = PSleep d b ->
  step second Consume w =
    if d <=? clock w
    then Some (if needs_processing w then woken second (completed b w)
               else set_processor PWait (completed b w))
    else None.
Proof.
  intros Hwf Hp. simpl. rewrite Hp. destruct (d <=? clock w); [|done].
  unfold process_batch_resume.
  erewrite bind_Ok; [|apply complete_eq].
  - unfold bind, get. simpl. destruct (needs_processing w); [|done].
    destruct (process_batch_wake_eq second (completed b w))
      as (p & w' & -> & <-); [|done].
    simpl. by apply wf_lock.
  - intros t Ht. apply (wf_refs w); [done|].
    apply elem_of_app. left. unfold inflight. by rewrite Hp.
Qed.

Lemma wf_step a w w' : wf w -> step second a w = Some w' -> wf w'.
Proof.
  intros Hwf Hs. destruct a as [request_id|c|k| | |].
  - rewrite step_submit in Hs by by apply wf_lock. simplify_eq.
    destruct (3 <=? length (queue w)) eqn:E.
    + by apply wf_rejected.
    + apply Nat.leb_gt in E. by apply wf_accepted.
  - rewrite step_resume in Hs.
    destruct (calls w !! c) as [[t| |]|]; try done.
    destruct (heap w !! t) as [tk|] eqn:Ht; [|done].
    destruct (task_done_event tk) eqn:Hd; simplify_eq.
    by apply wf_returned.
  - rewrite step_fire in Hs.
    destruct (timers w !! k) as [[d o|]|]; try done.
    destruct (d <=? clock w); simplify_eq. by apply wf_fired.
  - destruct (processor w) as [|d b|] eqn:Hp.
    + rewrite step_consume_wait in Hs by (done || by apply wf_lock).
      destruct (needs_processing w); simplify_eq.
      apply wf_woken; [done|]. unfold inflight. by rewrite Hp.
    + rewrite (step_consume_sleep d b) in Hs by done.
      destruct (d <=? clock w); simplify_eq.
      pose proof (wf_completed w d b Hwf Hp) as Hc.
      destruct (needs_processing w); [|done].
      rewrite <- (woken_set_processor PWait). by apply wf_woken.
    + simpl in Hs. by rewrite Hp in Hs.
  - simpl in Hs. destruct (processor w); simplify_eq; by apply wf_cancelled.
  - simpl in Hs. simplify_eq. by apply wf_tick.
Qed.

Lemma wf_exec sched : forall w w',
  wf w -> exec second sched w = Some w' -> wf w'.
Proof.
  induction sched as [|a sched IH]; intros w w' Hwf He; simpl in He.
  - by simplify_eq.
  - destruct (step second a w) as [w1|] eqn:Hs; [|done].
    eapply IH; [|done]. by eapply wf_step.
Qed.

(** A world the program can be in: the result of some schedule, from the
    start. *)
Definition reachable (w : world) : Prop :=
  exists sched, exec second sched init = Some w.

Lemma wf_reachable w : reachable w -> wf w.
Proof. intros [sched He]. eapply wf_exec; [apply wf_init|done]. Qed.

Lemma exec_app s1 : forall s2 w,
  exec second (s1 ++ s2) w =
    match exec second s1 w with
    | Some w1 => exec second s2 w1
    | None => None
    end.
Proof.
  induction s1 as [|a s1 IH]; intros s2 w; simpl; [done|].
  destruct (step second a w); [apply IH|done].
Qed.

Lemma exec_cons a sched w :
  exec second (a :: sched) w =
    match step second a w with
    | Some w' => exec second sched w'
    | None => None
    end.
Proof. done. Qed.

Lemma reachable_step a w w' :
  reachable w -> step second a w = Some w' -> reachable w'.
Proof.
  intros [sched He] Hs. exists (sched ++ [a]).
  rewrite exec_app, He. simpl. by rewrite Hs.
Qed.

Definition not_submit (a : action) : Prop :=
  match a with
  | Submit _ => False
  | _ => True
  end.

Lemma exec_ticks n : forall w,
  exec second (repeat Tick n) w = Some (set_clock (clock w + n) w).
Proof.
  induction n as [|n IH]; intros w; simpl.
  - rewrite Nat.add_0_r. by destruct w.
  - rewrite IH. unfold set_clock. simpl.
    by replace (clock w + S n) with (S (clock w + n)) by lia.
Qed.

(** No step cancels a timer or changes its wake-up time. *)
Lemma step_timers a w w' k d o :
  wf w -> step second a w = Some w' -> timers w !! k = Some (DSleep d o) ->
  timers w' !! k = Some (DSleep d o) \/
  (a = Fire k /\ d <= clock w /\ timers w' !! k = Some DDone).
Proof.
  intros Hwf Hs Hk. destruct a as [request_id|c|k'| | |].
  - rewrite step_submit in Hs by by apply wf_lock. simplify_eq. left.
    destruct (3 <=? length (queue w)); [done|]. simpl.
    destruct (1 <=? length (queue w)); [done|].
    rewrite lookup_app_l; [done|]. by eapply lookup_lt_Some.
  - rewrite step_resume in Hs. left.
    destruct (calls w !! c) as [[t| |]|]; try done.
    destruct (heap w !! t) as [tk|]; [|done].
    by destruct (task_done_event tk); simplify_eq.
  - rewrite step_fire in Hs.
    destruct (timers w !! k') as [[d' o'|]|] eqn:Hk'; try done.
    destruct (d' <=? clock w) eqn:Hd; simplify_eq. simpl.
    destruct (decide (k' = k)) as [->|Hne].
    + right. simplify_eq. apply Nat.leb_le in Hd. split; [done|]. split; [done|].
      apply list_lookup_insert_eq. by eapply lookup_lt_Some.
    + left. by rewrite list_lookup_insert_ne.
  - left. destruct (processor w) as [|d' b|] eqn:Hp.
    + rewrite step_consume_wait in Hs by (done || by apply wf_lock).
      destruct (needs_processing w); simplify_eq.
      unfold woken. by destruct (queue w).
    + rewrite (step_consume_sleep d' b) in Hs by done.
      destruct (d' <=? clock w); simplify_eq.
      destruct (needs_processing w); [|done].
      unfold woken. simpl. by destruct (queue w).
    + simpl in Hs. by rewrite Hp in Hs.
  - left. simpl in Hs. by destruct (processor w); simplify_eq.
  - left. simpl in Hs. by simplify_eq.
Qed.

(** What a step other than a submission can do to the queue, the timers and
    the wake signal. *)
Lemma step_quiet a w w' :
  wf w -> not_submit a -> step second a w = Some w' ->
  (queue w' = queue w \/ queue w' = drop 2 (queue w)) /\
  (forall k d o, timers w' !! k = Some (DSleep d o) ->
                 timers w !! k = Some (DSleep d o)) /\
  (needs_processing w = false -> needs_processing w' = true ->
   exists k d o, a = Fire k /\ timers w !! k = Some (DSleep d o) /\
                 d <= clock w /\ queue w <> []).
Proof.
  intros Hwf Ha Hs. destruct a as [request_id|c|k'| | |]; [done|..].
  - rewrite step_resume in Hs.
    destruct (calls w !! c) as [[t| |]|]; try done.
    destruct (heap w !! t) as [tk|]; [|done].
    destruct (task_done_event tk); simplify_eq. simpl.
    split; [by left|]. split; [done|]. congruence.
  - rewrite step_fire in Hs.
    destruct (timers w !! k') as [[d' o'|]|] eqn:Hk'; try done.
    destruct (d' <=? clock w) eqn:Hd; simplify_eq. simpl.
    split; [by left|]. split.
    + intros k d o Hk.
      apply list_lookup_insert_Some in Hk as [(?&?&?)|[_ Hk]]; done.
    + intros Hf Hf'. exists k', d', o'. apply Nat.leb_le in Hd.
      split; [done|]. split; [done|]. split; [done|].
      destruct (queue w); [congruence|done].
  - destruct (processor w) as [|d' b|] eqn:Hp.
    + rewrite step_consume_wait in Hs by (done || by apply wf_lock).
      destruct (needs_processing w); simplify_eq.
      unfold woken. destruct (queue w) as [|x q] eqn:Hq; simpl; rewrite ?Hq.
      * split; [by left|]. split; [done|]. congruence.
      * split; [by right|]. split; [done|]. congruence.
    + rewrite (step_consume_sleep d' b) in Hs by done.
      destruct (d' <=? clock w); simplify_eq.
      destruct (needs_processing w) eqn:Hf; simpl.
      * unfold woken. simpl.
        destruct (queue w) as [|x q] eqn:Hq; simpl; rewrite ?Hq.
        -- split; [by left|]. split; [done|]. congruence.
        -- split; [by right|]. split; [done|]. congruence.
      * split; [by left|]. split; [done|]. congruence.
    + simpl in Hs. by rewrite Hp in Hs.
  - simpl in Hs. destruct (processor w); simplify_eq; simpl;
      (split; [by left|]); (split; [done|]); congruence.
  - simpl in Hs. simplify_eq. simpl.
    split; [by left|]. split; [done|]. congruence.
Qed.

(** After a cancellation nothing touches the requests that were waiting. *)
Definition frozen (w w' : world) : Prop :=
  processor w' = PCancelled /\
  (exists later, queue w' = queue w ++ later) /\
  (exists newer, heap w' = heap w ++ newer) /\
  (forall c t tk, calls w !! c = Some (AddWait t) -> heap w !! t = Some tk ->
     task_done_event tk = false -> calls w' !! c = Some (AddWait t)).

Lemma frozen_step a w w1 w2 :
  wf w1 -> frozen w w1 -> step second a w1 = Some w2 -> frozen w w2.
Proof.
  intros Hwf (Hp & [later Hq] & [newer Hh] & Hc) Hs. unfold frozen.
  destruct a as [request_id|c|k'| | |].
  - rewrite step_submit in Hs by by apply wf_lock. simplify_eq.
    destruct (3 <=? length (queue w1)); unfold rejected, accepted, frozen; simpl.
    + split; [done|]. split; [by exists later|]. split; [by exists newer|].
      intros c t tk H1 H2 H3. rewrite lookup_app_l; [eauto|].
      eapply lookup_lt_Some. eauto.
    + split; [done|]. split.
      { eexists. rewrite Hq, <- app_assoc. done. }
      split. { eexists. rewrite Hh, <- app_assoc. done. }
      intros c t tk H1 H2 H3. rewrite lookup_app_l; [eauto|].
      eapply lookup_lt_Some. eauto.
  - rewrite step_resume in Hs.
    destruct (calls w1 !! c) as [[t| |]|] eqn:Hc1; try done.
    destruct (heap w1 !! t) as [tk|] eqn:Ht; [|done].
    destruct (task_done_event tk) eqn:Hd; simplify_eq. simpl.
    split; [done|]. split; [by exists later|]. split; [by exists newer|].
    intros c' t' tk' H1 H2 H3.
    destruct (decide (c' = c)) as [->|Hne].
    + pose proof (Hc c t' tk' H1 H2 H3) as Hc'. simplify_eq.
      rewrite Hh, lookup_app_l in Ht by (by eapply lookup_lt_Some).
      congruence.
    + rewrite list_lookup_insert_ne by done. eauto.
  - rewrite step_fire in Hs.
    destruct (timers w1 !! k') as [[d' o'|]|]; try done.
    destruct (d' <=? clock w1); simplify_eq. simpl.
    split; [done|]. split; [by exists later|]. split; [by exists newer|]. done.
  - simpl in Hs. by rewrite Hp in Hs.
  - simpl in Hs. by rewrite Hp in Hs.
  - simpl in Hs. simplify_eq. simpl.
    split; [done|]. split; [by exists later|]. split; [by exists newer|]. done.
Qed.

Lemma frozen_exec sched : forall w w1 w2,
  wf w1 -> frozen w w1 -> exec second sched w1 = Some w2 -> frozen w w2.
Proof.
  induction sched as [|a sched IH]; intros w w1 w2 Hwf Hf He; simpl in He.
  - by simplify_eq.
  - destruct (step second a w1) as [w1'|] eqn:Hs; [|done].
    eapply IH; [| |done].
    + by eapply wf_step.
    + by eapply frozen_step.
Qed.

Lemma step_fire_due k d o w :
  timers w !! k = Some (DSleep d o) -> d <= clock w ->
  step second (Fire k) w = Some (fired k w).
Proof.
  intros Hk Hd. rewrite step_fire, Hk. apply Nat.leb_le in Hd. by rewrite Hd.
Qed.

Lemma step_consume_due d b w :
  wf w -> processor w = PSleep d b -> d <= clock w ->
  step second Consume w =
    Some (if needs_processing w then woken second (completed b w)
          else set_processor PWait (completed b w)).
Proof.
  intros Hwf Hp Hd. rewrite (step_consume_sleep d b) by done.
  apply Nat.leb_le in Hd. by rewrite Hd.
Qed.

End Invariant.

(** ** Scenarios *)

(** Four clients call [add_request] before the consumer runs. *)
Definition four_submissions : list action :=
  [Submit "A"; Submit "B"; Submit "C"; Submit "D"].

Definition after_four_submissions : world :=
  Eval vm_compute in default init (exec 1 four_submissions init).

(** Two requests are batched, three more arrive while the batch is being
    processed. *)
Definition admission_schedule : list action :=
  [Submit "A"; Submit "B"; Consume; Submit "C"; Submit "D"; Submit "E"].

Definition during_processing : world :=
  Eval vm_compute in default init (exec 1 admission_schedule init).

(** Three requests arrive back to back, the consumer takes the first two. *)
Definition three_then_consume : list action :=
  [Submit "D"; Submit "E"; Submit "F"; Consume].

Definition first_batch_taken : world :=
  Eval vm_compute in default init (exec 1 three_then_consume init).

(** The first batch of [three_then_consume] is complete and its two calls are
    about to be resumed. *)
Definition first_batch_done : world :=
  Eval vm_compute in
    default init (exec 1 [Tick; Fire 0; Tick; Consume] first_batch_taken).

(** The world after [three_then_consume], for any clock resolution: "D" and
    "E" are in flight, "F" is left in the queue, the timer of "D" is pending. *)
Definition remainder_left (second : nat) : world :=
  World [2] false false false
        [Task "D" false (TimeTime 0) None; Task "E" false (TimeTime 1) None;
         Task "F" false (TimeTime 2) None]
        (PSleep (0 + 2 * second) [0; 1])
        [DSleep (0 + 1 * second) 0]
        [AddWait 0; AddWait 1; AddWait 2]
        0
        [EvBatch [0; 1] true; EvSet; EvAppend 2 2 true; EvSet;
         EvAppend 1 1 true; EvAppend 0 0 true].

(** "D" and "E" are queued; then "F" as well. *)
Definition two_queued : world :=
  Eval vm_compute in default init (exec 1 [Submit "D"; Submit "E"] init).

Definition three_queued : world :=
  Eval vm_compute in default init (step 1 (Submit "F") two_queued).

(** One request is queued, then the consumer is cancelled. *)
Definition cancelled_with_timer : world :=
  Eval vm_compute in default init (exec 1 [Submit "A"; Cancel] init).

(** One time unit after [cancelled_with_timer], the timer of "A" has fired. *)
Definition timer_fired_after_cancel : world :=
  Eval vm_compute in
    default init (exec 1 [Tick; Fire 0] cancelled_with_timer).

(** ** Properties of the server *)

Section Properties.

Variable second : nat.

(** C1.  Capacity invariant: in every world the program reaches, whatever the
    sequence of submissions and consumer steps, the queue holds at most
    [MAX_QUEUE_SIZE] = 3 requests; and every [append] in the history ran with
    the queue lock held and on a queue of fewer than 3 requests, that is,
    after the length check under the lock had passed. *)
Theorem capacity_invariant sched w :
  exec second sched init = Some w ->
  length (queue w) <= MAX_QUEUE_SIZE /\
  forall t n l, EvAppend t n l ∈ log w ->
    l = true /\ n < MAX_QUEUE_SIZE /\ S n <= MAX_QUEUE_SIZE.
Proof.
  intros He. assert (Hwf : wf second w) by (apply wf_reachable; by exists sched).
  split; [by apply (wf_capacity second)|].
  intros t n l Hin. destruct (wf_appends second w Hwf t n l Hin) as [Hl Hn].
  unfold MAX_QUEUE_SIZE in *. split; [done|]. lia.
Qed.

(** C2.  Batch extraction: when a step of the consumer loop removes a batch,
    the batch is the front prefix of the queue of size
    min(queue length, [MAX_BATCH_SIZE] = 2), so of size at most 2 and exactly 2
    when the queue held at least 2 requests; the queue afterwards is the old
    queue without that prefix, in the same order.  Hence the batches taken so
    far, in order, followed by the queue are the requests in arrival order. *)
Theorem batch_extraction w w' :
  reachable second w -> step second Consume w = Some w' ->
  batched (log w') ++ queue w' = appended (log w') /\
  ((processor w' = PWait /\ queue w' = queue w /\
    batched (log w') = batched (log w)) \/
   (exists b,
      processor w' = PSleep (clock w + 2 * second) b /\
      b = take (min (length (queue w)) MAX_BATCH_SIZE) (queue w) /\
      length b = min (length (queue w)) MAX_BATCH_SIZE /\
      length b <= MAX_BATCH_SIZE /\
      (MAX_BATCH_SIZE <= length (queue w) -> length b = MAX_BATCH_SIZE) /\
      queue w' = drop (length b) (queue w) /\
      b ++ queue w' = queue w /\
      batched (log w') = batched (log w) ++ b)).
Proof.
  intros Hr Hs. pose proof (wf_reachable second w Hr) as Hwf.
  pose proof (wf_step second _ _ _ Hwf Hs) as Hwf'.
  split. { rewrite (wf_fifo second), (wf_arrivals second); done. }
  assert (Hw : forall w0, queue_lock w0 = false ->
    (processor (woken second w0) = PWait /\ queue (woken second w0) = queue w0 /\
     batched (log (woken second w0)) = batched (log w0)) \/
    (exists b,
      processor (woken second w0) = PSleep (clock w0 + 2 * second) b /\
      b = take (min (length (queue w0)) MAX_BATCH_SIZE) (queue w0) /\
      length b = min (length (queue w0)) MAX_BATCH_SIZE /\
      length b <= MAX_BATCH_SIZE /\
      (MAX_BATCH_SIZE <= length (queue w0) -> length b = MAX_BATCH_SIZE) /\
      queue (woken second w0) = drop (length b) (queue w0) /\
      b ++ queue (woken second w0) = queue w0 /\
      batched (log (woken second w0)) = batched (log w0) ++ b)).
  { intros w0 Hl. unfold woken, MAX_BATCH_SIZE. destruct (queue w0) as [|a q] eqn:Hq.
    - left. simpl. done.
    - right. exists (take 2 (a :: q)).
      assert (Hlen : length (take 2 (a :: q)) = min (length (a :: q)) 2).
      { rewrite length_take. lia. }
      cbn [processor queue log batched]. rewrite Hlen.
      split; [done|]. split.
      { destruct q as [|? [|? ?]]; done. }
      split; [done|]. split; [lia|]. split; [lia|].
      split. { destruct q as [|? [|? ?]]; done. }
      split; [|done]. destruct q as [|? [|? ?]]; done. }
  destruct (processor w) as [|d b|] eqn:Hp.
  - rewrite step_consume_wait in Hs by (done || by apply (wf_lock second)).
    destruct (needs_processing w); simplify_eq.
    apply Hw. by apply (wf_lock second).
  - rewrite (step_consume_sleep second d b) in Hs by done.
    destruct (d <=? clock w); simplify_eq.
    destruct (needs_processing w).
    + destruct (Hw (completed b w)) as [H|H].
      * simpl. by apply (wf_lock second).
      * left. simpl in H. by rewrite finish_log_batched in H.
      * right. simpl in H. by rewrite finish_log_batched in H.
    + left. simpl. by rewrite finish_log_batched.
  - simpl in Hs. by rewrite Hp in Hs.
Qed.

(** C3.  Wake-trigger decision in submit.  A submission that passes the
    capacity check appends its task; if the queue then holds at least
    [MAX_BATCH_SIZE] = 2 requests it raises the wake signal and schedules no
    timer; otherwise the queue holds exactly 1 request and it schedules one
    deferred-wake timer, due 1 time unit later, without raising the wake
    signal.  A rejected submission does neither.  A timer cannot fire before
    it is due; when it fires it raises the wake signal if and only if the
    queue is not empty at that moment. *)
Theorem wake_trigger request_id w :
  reachable second w ->
  (length (queue w) < MAX_QUEUE_SIZE ->
   exists t w',
     add_request_enter second request_id w = Ok t w' /\
     queue w' = queue w ++ [t] /\
     if 2 <=? length (queue w')
     then needs_processing w' = true /\ timers w' = timers w /\
          log w' = EvSet :: EvAppend t (length (queue w)) true :: log w
     else length (queue w') = 1 /\
          needs_processing w' = needs_processing w /\
          timers w' = timers w ++ [DSleep (clock w + 1 * second) t] /\
          log w' = EvAppend t (length (queue w)) true :: log w) /\
  (MAX_QUEUE_SIZE <= length (queue w) ->
   add_request_enter second request_id w = Raised "Server too busy!" w) /\
  (forall k d o, timers w !! k = Some (DSleep d o) ->
     (clock w < d -> step second (Fire k) w = None) /\
     (d <= clock w ->
      exists w', step second (Fire k) w = Some w' /\
        timers w' = <[k := DDone]> (timers w) /\
        match queue w with
        | [] => log w' = log w /\ needs_processing w' = needs_processing w
        | _ :: _ => log w' = EvSet :: log w /\ needs_processing w' = true
        end)).
Proof.
  intros Hr. pose proof (wf_reachable second w Hr) as Hwf.
  pose proof (wf_lock second w Hwf) as Hl.
  unfold MAX_QUEUE_SIZE. split; [|split].
  - intros Hn. destruct w as [q l f p h pr ts cs ck lg]. simpl in *. subst l.
    destruct q as [|a [|b [|c q]]]; simpl in Hn; try lia;
      do 2 eexists; (split; [reflexivity|]); simpl; done.
  - intros Hn. by apply add_request_enter_full.
  - intros k d o Hk. rewrite step_fire, Hk. split.
    + intros Hd. apply Nat.leb_gt in Hd. by rewrite Hd.
    + intros Hd. apply Nat.leb_le in Hd. rewrite Hd. eexists. split; [done|].
      unfold fired. simpl. by destruct (queue w).
Qed.

(** C4.  Exactly-once result delivery.  In every reachable world: no request
    was removed from the queue in more than one batch; no result slot was
    written more than once; every completion signal in the history is
    preceded by the write of that task's result slot; and a submit call that
    returns, returns the value that was written to its task's result slot. *)
Theorem exactly_once_delivery w :
  reachable second w ->
  NoDup (batched (log w)) /\
  NoDup (result_refs (log w)) /\
  log_ordered (log w) /\
  (forall t v, EvReturn t v ∈ log w -> exists s, v = Some s /\ EvResult t s ∈ log w) /\
  (forall c t w', calls w !! c = Some (AddWait t) ->
     step second (Resume c) w = Some w' ->
     exists tk s,
       heap w !! t = Some tk /\ task_result tk = Some s /\
       EvResult t s ∈ log w /\
       calls w' !! c = Some (AddReturned (Some s)) /\
       log w' = EvReturn t (Some s) :: log w).
Proof.
  intros Hr. pose proof (wf_reachable second w Hr) as Hwf.
  split; [|split; [|split; [|split]]].
  - pose proof (NoDup_seq 0 (length (heap w))) as Hnd.
    rewrite <- (wf_fifo second w Hwf) in Hnd.
    by apply NoDup_app in Hnd as (Hnd & _).
  - by apply (wf_results_once second).
  - by apply (wf_ordered second).
  - by apply (wf_returns second).
  - intros c t w' Hc Hs. rewrite step_resume, Hc in Hs.
    destruct (heap w !! t) as [tk|] eqn:Ht; [|done].
    destruct (task_done_event tk) eqn:Hd; simplify_eq.
    pose proof (wf_heap second w Hwf t tk Ht) as Hres. rewrite Hd in Hres.
    pose proof (wf_written second w Hwf t tk Ht Hd) as Hlog.
    exists tk, ("Processed " +:+ task_id tk). rewrite Hres.
    split; [done|]. split; [done|]. split; [done|]. split; [|done].
    simpl. apply list_lookup_insert_eq. by eapply lookup_lt_Some.
Qed.

(** C5.  Full-queue rejection: a submission made while the queue holds
    [MAX_QUEUE_SIZE] = 3 requests is not suspended at the lock; in the same
    step it raises "Server too busy!", and the world is left as it was: the
    queue is unchanged and no task is created.  Only the failed call is
    recorded. *)
Theorem full_queue_rejection request_id w :
  reachable second w -> length (queue w) = MAX_QUEUE_SIZE ->
  add_request_enter second request_id w = Raised "Server too busy!" w /\
  exists w', step second (Submit request_id) w = Some w' /\
    calls w' = calls w ++ [AddRaised "Server too busy!"] /\
    queue w' = queue w /\ heap w' = heap w /\ queue_lock w' = false /\
    needs_processing w' = needs_processing w /\ timers w' = timers w /\
    log w' = log w.
Proof.
  intros Hr Hn. pose proof (wf_reachable second w Hr) as Hwf.
  pose proof (wf_lock second w Hwf) as Hl. unfold MAX_QUEUE_SIZE in Hn.
  split; [apply add_request_enter_full; [done|lia]|].
  exists (rejected w). split; [apply step_submit_full; [done|lia]|].
  simpl. by rewrite Hl.
Qed.

(** C10.  Admission during processing.  While a batch is in flight the queue
    lock is free and a submission is accepted whenever fewer than 3 requests
    are queued; so the capacity bound limits the queue only, and the requests
    accepted but not completed (queued or in the current batch) number at most
    [MAX_QUEUE_SIZE + MAX_BATCH_SIZE] = 5 and can be exactly 5. *)
Theorem admission_during_processing :
  (forall sched w, exec second sched init = Some w ->
     queue_lock w = false /\
     length (queue w) + length (inflight w) <= MAX_QUEUE_SIZE + MAX_BATCH_SIZE /\
     forall d b request_id, processor w = PSleep d b ->
       length (queue w) < MAX_QUEUE_SIZE ->
       step second (Submit request_id) w = Some (accepted second request_id w)) /\
  exists sched w d b,
    exec second sched init = Some w /\ processor w = PSleep d b /\
    length (queue w) = MAX_QUEUE_SIZE /\ length b = MAX_BATCH_SIZE /\
    NoDup (b ++ queue w) /\
    forall t, t ∈ b ++ queue w ->
      exists tk, heap w !! t = Some tk /\ task_done_event tk = false.
Proof.
  split.
  - intros sched w He.
    assert (Hwf : wf second w) by (apply wf_reachable; by exists sched).
    split; [by apply (wf_lock second)|]. split.
    + pose proof (wf_capacity second w Hwf). pose proof (wf_batch_size second w Hwf).
      lia.
    + intros d b request_id _ Hn. apply step_submit_ok; [|done].
      by apply (wf_lock second).
  - exists admission_schedule. eexists. exists (0 + 2 * second), [0; 1].
    split; [cbv; reflexivity|]. simpl. split; [done|]. split; [done|]. split; [done|].
    split.
    + apply (NoDup_seq 0 5).
    + intros t Ht.
      repeat (apply elem_of_cons in Ht as [->|Ht]; [eexists; split; reflexivity|]).
      by apply elem_of_nil in Ht.
Qed.

Lemma exec_three_then_consume :
  exec second three_then_consume init = Some (remainder_left second).
Proof. cbv. reflexivity. Qed.

(** C8 (amended).  The only shutdown in the code is [processor_task.cancel()].
    It stops the consumer loop and nothing else: the queue, the tasks, the
    calls and the pending deferred-wake timers are as before, and a pending
    timer still fires when it is due.  The requests enqueued at that time are
    neither drained nor failed: in every later world they are still in the
    queue, in order, not completed, and their submit calls are still
    waiting. *)
Theorem cancel_stops_only_the_consumer w :
  reachable second w -> processor w <> PCancelled ->
  exists w0,
    step second Cancel w = Some w0 /\
    processor w0 = PCancelled /\ timers w0 = timers w /\
    queue w0 = queue w /\ heap w0 = heap w /\ calls w0 = calls w /\
    (forall k d o, timers w0 !! k = Some (DSleep d o) -> d <= clock w0 ->
       step second (Fire k) w0 = Some (fired k w0)) /\
    forall sched w', exec second sched w0 = Some w' ->
      processor w' = PCancelled /\
      (exists later, queue w' = queue w ++ later) /\
      forall t, t ∈ queue w ->
        (exists tk, heap w' !! t = Some tk /\ task_done_event tk = false /\
                    task_result tk = None) /\
        forall c, calls w !! c = Some (AddWait t) ->
                  calls w' !! c = Some (AddWait t).
Proof.
  intros Hr Hp. pose proof (wf_reachable second w Hr) as Hwf.
  exists (set_processor PCancelled w).
  split. { simpl. by destruct (processor w). }
  do 5 (split; [done|]). split.
  { intros k d o Hk Hd. rewrite step_fire, Hk.
    apply Nat.leb_le in Hd. by rewrite Hd. }
  intros sched w' He.
  assert (Hf : frozen w (set_processor PCancelled w)).
  { split; [done|]. split; [exists []; simpl; by rewrite app_nil_r|].
    split; [exists []; simpl; by rewrite app_nil_r|]. done. }
  destruct (frozen_exec second sched w _ w' (wf_cancelled second w Hwf) Hf He)
    as (Hp' & Hq & [newer Hh] & Hc).
  split; [done|]. split; [done|]. intros t Ht.
  destruct (wf_pending second w Hwf t) as (tk & Htk & Hd).
  { apply elem_of_app. by right. }
  split.
  - exists tk. rewrite Hh, lookup_app_l by (by eapply lookup_lt_Some).
    split; [done|]. split; [done|].
    rewrite (wf_heap second w Hwf t tk Htk), Hd. done.
  - intros c Hcall. eauto.
Qed.

(** C9.  Stale deferred-wake timers.  (a) No step cancels a pending timer or
    changes its wake-up time: it stays as it is until it fires itself.
    (b) A timer can fire after the request that scheduled it was removed in a
    batch, and then raises the wake signal for the requests that are in the
    queue at that moment.  (c) After the consumer has removed a batch and left
    a remainder in the queue, the wake signal is clear; as long as no new
    request is submitted, every timer still pending belongs to a request that
    has already left the queue, and the only step that raises the wake signal
    is the firing of such a timer. *)
Theorem stale_timers :
  (forall a w w' k d o,
     reachable second w -> step second a w = Some w' ->
     timers w !! k = Some (DSleep d o) ->
     timers w' !! k = Some (DSleep d o) \/
     (a = Fire k /\ d <= clock w /\ timers w' !! k = Some DDone)) /\
  (exists sched w k d o w',
     exec second sched init = Some w /\
     timers w !! k = Some (DSleep d o) /\
     o ∈ batched (log w) /\ (o ∉ queue w) /\ queue w <> [] /\
     needs_processing w = false /\
     step second (Fire k) w = Some w' /\
     needs_processing w' = true /\ log w' = EvSet :: log w) /\
  (forall w w1,
     reachable second w -> step second Consume w = Some w1 ->
     queue w1 <> queue w -> queue w1 <> [] ->
     needs_processing w1 = false /\
     forall sched w2,
       Forall not_submit sched -> exec second sched w1 = Some w2 ->
       (forall k d o, timers w2 !! k = Some (DSleep d o) ->
          (o ∉ queue w2) /\ o ∈ batched (log w2)) /\
       (forall a w3, not_submit a -> step second a w2 = Some w3 ->
          needs_processing w2 = false -> needs_processing w3 = true ->
          exists k d o, a = Fire k /\ timers w2 !! k = Some (DSleep d o) /\
                        queue w2 <> [] /\ o ∉ queue w2)).
Proof.
  split; [|split].
  - intros a w w' k d o Hr Hs Hk.
    eapply step_timers; [by apply wf_reachable|done|done].
  - exists (three_then_consume ++ repeat Tick second).
    exists (set_clock (0 + second) (remainder_left second)), 0.
    exists (0 + 1 * second), 0. eexists.
    split. { by rewrite exec_app, exec_three_then_consume, exec_ticks. }
    split; [done|]. split. { simpl. set_solver. }
    split. { simpl. set_solver. }
    split; [done|]. split; [done|].
    rewrite step_fire. simpl.
    assert (Hd : (second + 0 <=? second) = true) by (apply Nat.leb_le; lia).
    rewrite Hd. done.
  - intros w w1 Hr Hs Hne Hrem.
    pose proof (wf_reachable second w Hr) as Hwf.
    pose proof (wf_step second _ _ _ Hwf Hs) as Hwf1.
    destruct (step_quiet second Consume w w1 Hwf I Hs) as ([Hq|Hq] & Htm & _);
      [done|].
    assert (Hflag : needs_processing w1 = false).
    { destruct (processor w) as [|d b|] eqn:Hp.
      - rewrite step_consume_wait in Hs by (done || by apply (wf_lock second)).
        destruct (needs_processing w); simplify_eq.
        unfold woken. by destruct (queue w).
      - rewrite (step_consume_sleep second d b) in Hs by done.
        destruct (d <=? clock w); simplify_eq.
        destruct (needs_processing w) eqn:Hf.
        + unfold woken. simpl. by destruct (queue w).
        + simpl in Hq. destruct (queue w) as [|? [|? ?]]; simpl in *; congruence.
      - simpl in Hs. by rewrite Hp in Hs. }
    split; [done|].
    assert (Hown1 : forall k d o, timers w1 !! k = Some (DSleep d o) -> o ∉ queue w1).
    { intros k d o Hk Hin. apply Htm in Hk.
      destruct (wf_timers second w Hwf k d o Hk) as (_ & _ & Hpos).
      rewrite Hq in Hin. apply list_elem_of_lookup in Hin as [i Hi].
      rewrite lookup_drop in Hi. by apply (Hpos (S i)). }
    assert (Hinv : forall sched w2, Forall not_submit sched -> forall w1',
      wf second w1' ->
      (forall k d o, timers w1' !! k = Some (DSleep d o) -> o ∉ queue w1') ->
      exec second sched w1' = Some w2 ->
      wf second w2 /\
      forall k d o, timers w2 !! k = Some (DSleep d o) -> o ∉ queue w2).
    { induction 1 as [|a sched Ha Hsched IH]; intros w1' Hwf' Hown He; simpl in He.
      - by simplify_eq.
      - destruct (step second a w1') as [w1''|] eqn:Hs'; [|done].
        apply (IH w1''); [by eapply wf_step| |done].
        intros k d o Hk Hin.
        destruct (step_quiet second a w1' w1'' Hwf' Ha Hs') as (Hq' & Htm' & _).
        apply (Hown k d o); [by apply Htm'|].
        destruct Hq' as [Hq'|Hq']; rewrite Hq' in Hin; [done|].
        apply list_elem_of_lookup in Hin as [i Hi]. rewrite lookup_drop in Hi.
        by eapply list_elem_of_lookup_2. }
    intros sched w2 Hsched He.
    destruct (Hinv sched w2 Hsched w1 Hwf1 Hown1 He) as (Hwf2 & Hown2).
    assert (Hbat : forall k d o, timers w2 !! k = Some (DSleep d o) ->
                                  o ∈ batched (log w2)).
    { intros k d o Hk.
      destruct (wf_timers second w2 Hwf2 k d o Hk) as (_ & Ho & _).
      assert (Hin : o ∈ seq 0 (length (heap w2))).
      { apply elem_of_seq. lia. }
      rewrite <- (wf_fifo second w2 Hwf2) in Hin.
      apply elem_of_app in Hin as [Hin|Hin]; [done|].
      by apply Hown2 in Hk. }
    split; [by eauto|].
    intros a w3 Ha Hs3 Hf Hf'.
    destruct (step_quiet second a w2 w3 Hwf2 Ha Hs3) as (_ & _ & Hraise).
    destruct (Hraise Hf Hf') as (k & d & o & -> & Hk & _ & Hne').
    exists k, d, o. eauto.
Qed.

(** One run of scenario C, for any clock resolution: "D", "E" and "F" are
    submitted to the new server and the consumer runs.  "D" and "E" are the
    first batch and return at 2 time units; the single timer of the run, the
    one of "D", fires at 1 time unit and raises the wake signal; "F" is the
    second batch and returns at 4 time units. *)
Lemma scenario_c_run :
  exists wA wB wC wD,
    exec second [Submit "D"; Submit "E"; Submit "F"; Consume] init = Some wA /\
    (clock wA = 0 /\ processor wA = PSleep (2 * second) [0; 1] /\
     queue wA = [2] /\ timers wA = [DSleep (1 * second) 0] /\
     needs_processing wA = false) /\
    exec second (repeat Tick second ++ [Fire 0]) wA = Some wB /\
    (clock wB = 1 * second /\ timers wB = [DDone] /\ queue wB = [2] /\
     needs_processing wB = true /\ inflight wB = [0; 1]) /\
    exec second (repeat Tick second ++ [Consume; Resume 0; Resume 1]) wB
      = Some wC /\
    (clock wC = 2 * second /\
     calls wC = [AddReturned (Some "Processed D");
                 AddReturned (Some "Processed E"); AddWait 2] /\
     processor wC = PSleep (4 * second) [2] /\ queue wC = [] /\
     timers wC = [DDone] /\ needs_processing wC = false) /\
    exec second (repeat Tick (2 * second) ++ [Consume; Resume 2]) wC
      = Some wD /\
    (clock wD = 4 * second /\
     calls wD = [AddReturned (Some "Processed D");
                 AddReturned (Some "Processed E");
                 AddReturned (Some "Processed F")] /\
     processor wD = PWait /\ queue wD = [] /\ timers wD = [DDone]).
Proof.
  assert (HA : reachable second (remainder_left second)).
  { exists three_then_consume. apply exec_three_then_consume. }
  set (wA := remainder_left second) in *.
  set (wB := fired 0 (set_clock (clock wA + second) wA)).
  assert (EB : exec second (repeat Tick second ++ [Fire 0]) wA = Some wB).
  { rewrite exec_app, exec_ticks, exec_cons.
    rewrite (step_fire_due second 0 (0 + 1 * second) 0); [done|done|].
    simpl. lia. }
  assert (HB : wf second wB).
  { eapply wf_exec; [apply (wf_reachable second wA HA)|apply EB]. }
  set (wB' := set_clock (clock wB + second) wB).
  assert (HB' : wf second wB').
  { eapply wf_exec; [apply HB|apply exec_ticks]. }
  set (wC0 := woken second (completed [0; 1] wB')).
  assert (E0 : step second Consume wB' = Some wC0).
  { rewrite (step_consume_due second (0 + 2 * second) [0; 1]); [done|done|done|].
    simpl. lia. }
  set (wC := returned 1 1 (Some "Processed E")
               (returned 0 0 (Some "Processed D") wC0)).
  assert (EC : exec second (repeat Tick second ++ [Consume; Resume 0; Resume 1]) wB
               = Some wC).
  { rewrite exec_app, exec_ticks. fold wB'. rewrite exec_cons, E0.
    cbv. reflexivity. }
  assert (HC : wf second wC).
  { eapply wf_exec; [apply HB|apply EC]. }
  set (wC' := set_clock (clock wC + 2 * second) wC).
  assert (HC' : wf second wC').
  { eapply wf_exec; [apply HC|apply exec_ticks]. }
  set (wD0 := set_processor PWait (completed [2] wC')).
  assert (E1 : step second Consume wC' = Some wD0).
  { rewrite (step_consume_due second (0 + second + second + 2 * second) [2]);
      [done|done|done|].
    simpl. lia. }
  set (wD := returned 2 2 (Some "Processed F") wD0).
  assert (ED : exec second (repeat Tick (2 * second) ++ [Consume; Resume 2]) wC
               = Some wD).
  { rewrite exec_app, exec_ticks. fold wC'. rewrite exec_cons, E1.
    cbv. reflexivity. }
  exists wA, wB, wC, wD.
  split; [apply exec_three_then_consume|].
  split. { simpl. repeat split; try done; try lia; f_equal; lia. }
  split; [done|].
  split. { simpl. repeat split; try done; lia. }
  split; [done|].
  split. { simpl. repeat split; try done; try lia; f_equal; lia. }
  split; [done|].
  simpl. repeat split; try done; lia.
Qed.

End Properties.

(** ** The properties at concrete worlds *)

Lemma reachable_after_four_submissions : reachable 1 after_four_submissions.
Proof. exists four_submissions. reflexivity. Qed.

Lemma reachable_first_batch_taken : reachable 1 first_batch_taken.
Proof. exists three_then_consume. reflexivity. Qed.

Lemma reachable_first_batch_done : reachable 1 first_batch_done.
Proof.
  exists (three_then_consume ++ [Tick; Fire 0; Tick; Consume]). reflexivity.
Qed.

Lemma reachable_during_processing : reachable 1 during_processing.
Proof. exists admission_schedule. reflexivity. Qed.

Lemma capacity_invariant_witness :
  exec 1 four_submissions init = Some after_four_submissions /\
  length (queue after_four_submissions) <= MAX_QUEUE_SIZE /\
  forall t n l, EvAppend t n l ∈ log after_four_submissions ->
    l = true /\ n < MAX_QUEUE_SIZE /\ S n <= MAX_QUEUE_SIZE.
Proof.
  split; [reflexivity|].
  apply (capacity_invariant 1 four_submissions after_four_submissions).
  reflexivity.
Defined.

Lemma batch_extraction_witness :
  reachable 1 after_four_submissions /\
  exists w',
    step 1 Consume after_four_submissions = Some w' /\
    batched (log w') ++ queue w' = appended (log w') /\
    processor w' = PSleep 2 [0; 1] /\ queue w' = [2].
Proof.
  split; [apply reachable_after_four_submissions|].
  eexists. split; [reflexivity|].
  split.
  - apply (batch_extraction 1 after_four_submissions);
      [apply reachable_after_four_submissions|reflexivity].
  - split; reflexivity.
Defined.

Lemma wake_trigger_witness :
  reachable 1 init /\
  (length (queue init) < MAX_QUEUE_SIZE ->
   exists t w',
     add_request_enter 1 "A" init = Ok t w' /\
     queue w' = queue init ++ [t] /\
     if 2 <=? length (queue w')
     then needs_processing w' = true /\ timers w' = timers init /\
          log w' = EvSet :: EvAppend t (length (queue init)) true :: log init
     else length (queue w') = 1 /\
          needs_processing w' = needs_processing init /\
          timers w' = timers init ++ [DSleep (clock init + 1 * 1) t] /\
          log w' = EvAppend t (length (queue init)) true :: log init).
Proof.
  assert (Hr : reachable 1 init) by (by exists []).
  split; [exact Hr|]. apply (wake_trigger 1 "A" init Hr).
Defined.

Lemma exactly_once_delivery_witness :
  reachable 1 first_batch_done /\
  NoDup (batched (log first_batch_done)) /\
  NoDup (result_refs (log first_batch_done)) /\
  log_ordered (log first_batch_done).
Proof.
  split; [apply reachable_first_batch_done|].
  pose proof (exactly_once_delivery 1 first_batch_done
                reachable_first_batch_done) as (H1 & H2 & H3 & _).
  done.
Defined.

Lemma full_queue_rejection_witness :
  reachable 1 after_four_submissions /\
  length (queue after_four_submissions) = MAX_QUEUE_SIZE /\
  add_request_enter 1 "E" after_four_submissions
    = Raised "Server too busy!" after_four_submissions.
Proof.
  split; [apply reachable_after_four_submissions|]. split; [reflexivity|].
  apply (full_queue_rejection 1 "E" after_four_submissions);
    [apply reachable_after_four_submissions|reflexivity].
Defined.

Lemma admission_during_processing_witness :
  exec 1 admission_schedule init = Some during_processing /\
  queue_lock during_processing = false /\
  length (queue during_processing) + length (inflight during_processing)
    <= MAX_QUEUE_SIZE + MAX_BATCH_SIZE.
Proof.
  split; [reflexivity|].
  destruct (proj1 (admission_during_processing 1) admission_schedule
              during_processing eq_refl) as (H1 & H2 & _).
  done.
Defined.

Lemma cancel_stops_only_the_consumer_witness :
  reachable 1 first_batch_taken /\ processor first_batch_taken <> PCancelled /\
  exists w0,
    step 1 Cancel first_batch_taken = Some w0 /\
    processor w0 = PCancelled /\ timers w0 = timers first_batch_taken /\
    queue w0 = queue first_batch_taken.
Proof.
  split; [apply reachable_first_batch_taken|]. split; [done|].
  destruct (cancel_stops_only_the_consumer 1 first_batch_taken
              reachable_first_batch_taken) as (w0 & H1 & H2 & H3 & H4 & _);
    [done|].
  exists w0. done.
Defined.

Lemma stale_timers_witness :
  reachable 1 first_batch_taken /\
  step 1 Tick first_batch_taken = Some (set_clock 1 first_batch_taken) /\
  timers first_batch_taken !! 0 = Some (DSleep 1 0) /\
  (timers (set_clock 1 first_batch_taken) !! 0 = Some (DSleep 1 0) \/
   (Tick = Fire 0 /\ 1 <= clock first_batch_taken /\
    timers (set_clock 1 first_batch_taken) !! 0 = Some DDone)).
Proof.
  split; [apply reachable_first_batch_taken|]. split; [reflexivity|].
  split; [reflexivity|].
  apply (proj1 (stale_timers 1) Tick first_batch_taken
           (set_clock 1 first_batch_taken) 0 1 0);
    [apply reachable_first_batch_taken|reflexivity|reflexivity].
Defined.

(** C7, as stated, fails where the third request is said to trigger its own
    deferred wake: when "F" is submitted behind "D" and "E" the queue holds 3
    requests, the submission only raises the wake signal, and the list of
    timers is the same before and after: the single timer of "D". *)
Lemma third_request_schedules_no_timer :
  exec 1 [Submit "D"; Submit "E"] init = Some two_queued /\
  step 1 (Submit "F") two_queued = Some three_queued /\
  queue three_queued = [0; 1; 2] /\
  timers two_queued = [DSleep 1 0] /\ timers three_queued = [DSleep 1 0] /\
  forall k d, timers three_queued !! k <> Some (DSleep d 2).
Proof.
  split; [vm_compute; reflexivity|]. split; [vm_compute; reflexivity|].
  split; [reflexivity|]. split; [reflexivity|]. split; [reflexivity|].
  intros [|[|k]] d; cbn; congruence.
Qed.

(** C8, as stated, fails where the shutdown is said to cancel the pending
    deferred-wake timers: after [processor_task.cancel()] the timer of "A" is
    still pending, and one time unit later it fires and raises the wake
    signal. *)
Lemma cancel_leaves_timer_pending :
  exec 1 [Submit "A"; Cancel] init = Some cancelled_with_timer /\
  processor cancelled_with_timer = PCancelled /\
  timers cancelled_with_timer = [DSleep 1 0] /\
  exec 1 [Tick; Fire 0] cancelled_with_timer = Some timer_fired_after_cancel /\
  timers timer_fired_after_cancel = [DDone] /\
  needs_processing timer_fired_after_cancel = true /\
  log timer_fired_after_cancel = EvSet :: log cancelled_with_timer.
Proof.
  split; [vm_compute; reflexivity|]. split; [reflexivity|].
  split; [reflexivity|]. split; [vm_compute; reflexivity|].
  split; [reflexivity|]. split; reflexivity.
Qed.

(** ** Further properties of the server *)

Section Cases.

Variable second : nat.

(** The nine ways a step can go, with the world it leads to. *)
Inductive step_case (w : world) : action -> world -> Prop :=
| case_rejected request_id :
    3 <= length (queue w) ->
    step_case w (Submit request_id) (rejected w)
| case_accepted request_id :
    length (queue w) < 3 ->
    step_case w (Submit request_id) (accepted second request_id w)
| case_returned c t tk :
    calls w !! c = Some (AddWait t) -> heap w !! t = Some tk ->
    task_done_event tk = true ->
    step_case w (Resume c) (returned c t (task_result tk) w)
| case_fired k d o :
    timers w !! k = Some (DSleep d o) -> d <= clock w ->
    step_case w (Fire k) (fired k w)
| case_woken :
    processor w = PWait -> needs_processing w = true ->
    step_case w Consume (woken second w)
| case_next d b :
    processor w = PSleep d b -> d <= clock w -> needs_processing w = true ->
    step_case w Consume (woken second (completed b w))
| case_idle d b :
    processor w = PSleep d b -> d <= clock w -> needs_processing w = false ->
    step_case w Consume (set_processor PWait (completed b w))
| case_cancelled :
    processor w <> PCancelled ->
    step_case w Cancel (set_processor PCancelled w)
| case_tick :
    step_case w Tick (set_clock (S (clock w)) w).

Lemma step_cases a w w' :
  wf second w -> step second a w = Some w' -> step_case w a w'.
Proof.
  intros Hwf Hs. destruct a as [request_id|c|k| | |].
  - rewrite step_submit in Hs by by apply (wf_lock second). simplify_eq.
    destruct (3 <=? length (queue w)) eqn:E.
    + apply Nat.leb_le in E. by constructor.
    + apply Nat.leb_gt in E. by constructor.
  - rewrite step_resume in Hs.
    destruct (calls w !! c) as [[t| |]|] eqn:Hc; try done.
    destruct (heap w !! t) as [tk|] eqn:Ht; [|done].
    destruct (task_done_event tk) eqn:Hd; simplify_eq. by econstructor.
  - rewrite step_fire in Hs.
    destruct (timers w !! k) as [[d o|]|] eqn:Hk; try done.
    destruct (d <=? clock w) eqn:Hd; simplify_eq.
    apply Nat.leb_le in Hd. by econstructor.
  - destruct (processor w) as [|d b|] eqn:Hp.
    + rewrite step_consume_wait in Hs by (done || by apply (wf_lock second)).
      destruct (needs_processing w) eqn:Hf; simplify_eq. by constructor.
    + rewrite (step_consume_sleep second d b) in Hs by done.
      destruct (d <=? clock w) eqn:Hd; simplify_eq. apply Nat.leb_le in Hd.
      destruct (needs_processing w) eqn:Hf; by econstructor.
    + simpl in Hs. by rewrite Hp in Hs.
  - simpl in Hs. destruct (processor w) eqn:Hp; simplify_eq;
      constructor; congruence.
  - simpl in Hs. simplify_eq. constructor.
Qed.

Lemma step_cases_inv a w w' :
  wf second w -> step_case w a w' -> step second a w = Some w'.
Proof.
  intros Hwf Hc. pose proof (wf_lock second w Hwf) as Hl.
  destruct Hc.
  - by apply step_submit_full.
  - by apply step_submit_ok.
  - rewrite step_resume, H, H0, H1. done.
  - by eapply step_fire_due.
  - rewrite step_consume_wait, H0; done.
  - rewrite (step_consume_due second d b), H1; done.
  - rewrite (step_consume_due second d b), H1; done.
  - simpl. by destruct (processor w).
  - done.
Qed.

(** Induction over the reachable worlds. *)
Lemma reachable_inv (P : world -> Prop) :
  P init ->
  (forall a w w', wf second w -> P w -> step_case w a w' -> P w') ->
  forall w, reachable second w -> P w.
Proof.
  intros Hinit Hstep w [sched He].
  assert (Hgen : forall sched w0 w1,
            wf second w0 -> P w0 -> exec second sched w0 = Some w1 -> P w1).
  { clear w sched He. induction sched as [|a sched IH]; intros w0 w1 Hwf HP He.
    - simpl in He. by simplify_eq.
    - rewrite exec_cons in He.
      destruct (step second a w0) as [w0'|] eqn:Hs; [|done].
      apply (IH w0' w1); [by eapply wf_step| |done].
      eapply Hstep; [done|done|]. by apply step_cases. }
  eapply Hgen; [apply wf_init|done|done].
Qed.

End Cases.

Section Extras.

Variable second : nat.

Lemma exec_inv (P : world -> Prop) :
  (forall a w w', wf second w -> P w -> step_case second w a w' -> P w') ->
  forall sched w0 w1,
    wf second w0 -> P w0 -> exec second sched w0 = Some w1 -> P w1.
Proof.
  intros Hstep. induction sched as [|a sched IH]; intros w0 w1 Hwf HP He.
  - simpl in He. by simplify_eq.
  - rewrite exec_cons in He.
    destruct (step second a w0) as [w0'|] eqn:Hs; [|done].
    apply (IH w0' w1); [by eapply wf_step| |done].
    eapply Hstep; [done|done|]. by apply step_cases.
Qed.

Lemma wake_has_work w :
  reachable second w -> needs_processing w = true -> queue w <> [].
Proof.
  revert w.
  apply (reachable_inv second
           (fun w => needs_processing w = true -> queue w <> [])); [done|].
  intros a w w' Hwf IH Hc. destruct Hc; simpl; try done.
  - intros _. by destruct (queue w).
  - destruct (queue w); done.
  - unfold woken. by destruct (queue w).
  - unfold woken. simpl. by destruct (queue w).
Qed.

(** X1.  The wake signal is only ever set while the queue is not empty, so
    the consumer never wakes up to an empty queue: the [continue] of lines
    53-54 is never taken, and every run of lines 50-62 takes a batch of at
    least one request. *)
Theorem wake_signal_means_work w w' :
  reachable second w -> step second Consume w = Some w' ->
  (needs_processing w = true -> queue w <> []) /\
  (needs_processing w = true ->
   exists b, b <> [] /\ b = take 2 (queue w) /\
             processor w' = PSleep (clock w + 2 * second) b /\
             queue w' = drop 2 (queue w)).
Proof.
  intros Hr Hs. pose proof (wake_has_work w Hr) as Hq.
  split; [done|]. intros Hf. specialize (Hq Hf).
  pose proof (wf_reachable second w Hr) as Hwf.
  apply (step_cases second) in Hs; [|done].
  inversion Hs; subst; try congruence.
  - unfold woken. destruct (queue w) as [|x q]; [done|].
    exists (take 2 (x :: q)). by destruct q.
  - unfold woken. simpl. destruct (queue w) as [|x q]; [done|].
    exists (take 2 (x :: q)). by destruct q.
Qed.

Lemma prefix_of_seq (l1 l2 : list nat) n :
  l1 ++ l2 = seq 0 n -> l1 = seq 0 (length l1).
Proof.
  intros E. assert (Hn : n = length l1 + length l2).
  { by rewrite <- length_app, E, length_seq. }
  subst n. rewrite seq_app in E. apply app_inj_1 in E; [|by rewrite length_seq].
  by destruct E.
Qed.

(** The results written so far, oldest first, are the front of the batches. *)
Lemma results_follow_batches w :
  reachable second w ->
  exists rest, batched (log w) = reverse (result_refs (log w)) ++ rest /\
               (processor w <> PCancelled -> rest = inflight w).
Proof.
  revert w.
  apply (reachable_inv second (fun w =>
    exists rest, batched (log w) = reverse (result_refs (log w)) ++ rest /\
                 (processor w <> PCancelled -> rest = inflight w))).
  { by exists []. }
  intros a w w' Hwf (rest & Hb & Hrest) Hc. unfold inflight in *.
  destruct Hc; simpl.
  - by exists rest.
  - exists rest. by destruct (1 <=? length (queue w)).
  - by exists rest.
  - exists rest. by destruct (queue w).
  - rewrite H in Hrest. rewrite Hrest in Hb by done.
    unfold woken. destruct (queue w) as [|x q]; simpl.
    + by exists [].
    + exists (x :: take 1 q). split; [|done].
      by rewrite Hb, app_nil_r.
  - rewrite H in Hrest. rewrite Hrest in Hb by done.
    assert (Hdone : batched (finish_log b (heap w) (log w)) =
                    reverse (result_refs (finish_log b (heap w) (log w)))).
    { rewrite finish_log_batched, finish_log_result_refs, Hb.
      - by rewrite reverse_app, reverse_involutive.
      - intros t Ht. apply (wf_refs second w); [done|].
        apply elem_of_app. left. unfold inflight. by rewrite H. }
    unfold woken. simpl. destruct (queue w) as [|x q]; simpl.
    + exists []. by rewrite app_nil_r.
    + exists (x :: take 1 q). by rewrite Hdone.
  - rewrite H in Hrest. rewrite Hrest in Hb by done.
    exists []. rewrite app_nil_r. split; [|done].
    rewrite finish_log_batched, finish_log_result_refs, Hb.
    + by rewrite reverse_app, reverse_involutive.
    + intros t Ht. apply (wf_refs second w); [done|].
      apply elem_of_app. left. unfold inflight. by rewrite H.
  - exists rest. done.
  - exists rest. done.
Qed.

(** X2.  Requests are completed in the order they arrived, without gaps: the
    result slots written so far are those of the first requests, in arrival
    order; so when a request is complete, every request that arrived before
    it is complete as well.  (The cancellation of the consumer included.) *)
Theorem completion_in_arrival_order w :
  reachable second w ->
  reverse (result_refs (log w)) = seq 0 (length (result_refs (log w))) /\
  forall t t' tk', t <= t' -> heap w !! t' = Some tk' ->
    task_done_event tk' = true ->
    exists tk, heap w !! t = Some tk /\ task_done_event tk = true /\
               task_result tk = Some ("Processed " +:+ task_id tk).
Proof.
  intros Hr. pose proof (wf_reachable second w Hr) as Hwf.
  destruct (results_follow_batches w Hr) as (rest & Hb & _).
  assert (Hseq : reverse (result_refs (log w)) =
                 seq 0 (length (reverse (result_refs (log w))))).
  { apply (prefix_of_seq _ (rest ++ queue w) (length (heap w))).
    by rewrite <- (wf_fifo second w Hwf), Hb, <- app_assoc. }
  rewrite length_reverse in Hseq. split; [done|].
  intros t t' tk' Hle Ht' Hd'.
  pose proof (wf_written second w Hwf t' tk' Ht' Hd') as Hin.
  assert (Hin' : t' ∈ reverse (result_refs (log w))).
  { apply elem_of_reverse, result_refs_elem. eauto. }
  rewrite Hseq in Hin'. apply elem_of_seq in Hin'.
  assert (Hin0 : t ∈ reverse (result_refs (log w))).
  { rewrite Hseq. apply elem_of_seq. lia. }
  apply elem_of_reverse, result_refs_elem in Hin0 as (v & Hv).
  destruct (wf_results second w Hwf t v Hv) as (tk & Htk & Hd & Hres).
  exists tk. split; [done|]. split; [done|].
  pose proof (wf_heap second w Hwf t tk Htk) as Hh. by rewrite Hd in Hh.
Qed.

Lemma finished_done tk :
  task_done_event tk = true ->
  task_result tk = Some ("Processed " +:+ task_id tk) ->
  finished tk = tk.
Proof. destruct tk. simpl. by intros -> ->. Qed.

Lemma step_heap a w w' t tk :
  wf second w -> step_case second w a w' -> heap w !! t = Some tk ->
  exists tk', heap w' !! t = Some tk' /\
    task_id tk' = task_id tk /\ task_time tk' = task_time tk /\
    (task_done_event tk = true -> tk' = tk).
Proof.
  intros Hwf Hc Ht.
  assert (Hsame : exists tk', heap w !! t = Some tk' /\
    task_id tk' = task_id tk /\ task_time tk' = task_time tk /\
    (task_done_event tk = true -> tk' = tk)) by (by exists tk).
  assert (Hfin : forall b, exists tk', finish_all b (heap w) !! t = Some tk' /\
    task_id tk' = task_id tk /\ task_time tk' = task_time tk /\
    (task_done_event tk = true -> tk' = tk)).
  { intros b. rewrite finish_all_lookup, Ht. case_decide; [|by exists tk].
    exists (finished tk). simpl. split; [done|]. split; [done|]. split; [done|].
    intros Hd. apply finished_done; [done|].
    pose proof (wf_heap second w Hwf t tk Ht) as Hh. by rewrite Hd in Hh. }
  destruct Hc; simpl; try done.
  - exists tk. rewrite lookup_app_l; [done|]. by eapply lookup_lt_Some.
  - unfold woken. by destruct (queue w).
  - unfold woken. simpl. destruct (queue w); simpl; apply Hfin.
Qed.

(** X3.  A task dict keeps its id and its recorded time for ever, and once it
    is complete it is never written again: in every later world it is the
    same dict, with the same result. *)
Theorem tasks_are_stable w sched w' t tk :
  reachable second w -> exec second sched w = Some w' ->
  heap w !! t = Some tk ->
  exists tk', heap w' !! t = Some tk' /\
    task_id tk' = task_id tk /\ task_time tk' = task_time tk /\
    (task_done_event tk = true -> tk' = tk).
Proof.
  intros Hr He Ht.
  apply (exec_inv (fun w1 => exists tk', heap w1 !! t = Some tk' /\
           task_id tk' = task_id tk /\ task_time tk' = task_time tk /\
           (task_done_event tk = true -> tk' = tk)) ) with (sched := sched) (w0 := w);
    [|by apply wf_reachable|by exists tk|done].
  intros a w1 w2 Hwf (tk1 & Ht1 & Hid & Htime & Hd) Hc.
  destruct (step_heap a w1 w2 t tk1 Hwf Hc Ht1) as (tk2 & Ht2 & Hid2 & Htime2 & Hd2).
  exists tk2. split; [done|]. split; [congruence|]. split; [congruence|].
  intros Hdone. specialize (Hd Hdone). subst tk1. by apply Hd2.
Qed.

Lemma step_calls a w w' c x :
  step_case second w a w' -> calls w !! c = Some x ->
  calls w' !! c = Some x \/
  exists t tk, x = AddWait t /\ a = Resume c /\ heap w !! t = Some tk /\
    task_done_event tk = true /\
    calls w' !! c = Some (AddReturned (task_result tk)).
Proof.
  intros Hc Hx. destruct Hc; simpl; try (by left).
  - left. unfold rejected. simpl. rewrite lookup_app_l; [done|].
    by eapply lookup_lt_Some.
  - left. rewrite lookup_app_l; [done|]. by eapply lookup_lt_Some.
  - destruct (decide (c0 = c)) as [->|Hne].
    + right. exists t, tk. simplify_eq. split; [done|]. split; [done|].
      split; [done|]. split; [done|].
      apply list_lookup_insert_eq. by eapply lookup_lt_Some.
    + left. by rewrite list_lookup_insert_ne.
  - left. unfold woken. by destruct (queue w).
  - left. unfold woken. simpl. by destruct (queue w).
Qed.

(** X4.  Every call gets the answer to its own request.  A call of
    [add_request(request_id)] that was accepted is, in every later world,
    either still waiting on its own task or has returned
    ["Processed " ++ request_id]; it never returns another request's result,
    [None], or raises.  A call that was rejected stays rejected. *)
Theorem call_gets_own_result request_id w w1 sched w' :
  reachable second w -> step second (Submit request_id) w = Some w1 ->
  exec second sched w1 = Some w' ->
  if 3 <=? length (queue w)
  then calls w' !! length (calls w) = Some (AddRaised "Server too busy!")
  else (exists tk, heap w' !! length (heap w) = Some tk /\
                   task_id tk = request_id) /\
       (calls w' !! length (calls w) = Some (AddWait (length (heap w))) \/
        calls w' !! length (calls w)
          = Some (AddReturned (Some ("Processed " +:+ request_id)))).
Proof.
  intros Hr Hs He. pose proof (wf_reachable second w Hr) as Hwf.
  pose proof (wf_step second _ _ _ Hwf Hs) as Hwf1.
  rewrite step_submit in Hs by by apply (wf_lock second). simplify_eq.
  destruct (3 <=? length (queue w)) eqn:E.
  - apply (exec_inv (fun w1 =>
        calls w1 !! length (calls w) = Some (AddRaised "Server too busy!")))
      with (sched := sched) (w0 := rejected w); [|done| |done].
    + intros a w1 w2 _ Hc Hstep.
      destruct (step_calls a w1 w2 _ _ Hstep Hc) as [H|(t & tk & ? & _)]; done.
    + unfold rejected. simpl. by rewrite lookup_app_r, Nat.sub_diag by lia.
  - apply (exec_inv (fun w1 =>
        (exists tk, heap w1 !! length (heap w) = Some tk /\
                    task_id tk = request_id) /\
        (calls w1 !! length (calls w) = Some (AddWait (length (heap w))) \/
         calls w1 !! length (calls w)
           = Some (AddReturned (Some ("Processed " +:+ request_id))))))
      with (sched := sched) (w0 := accepted second request_id w);
      [|done| |done].
    + intros a w1 w2 Hwf' ((tk & Htk & Hid) & Hc) Hstep.
      destruct (step_heap a w1 w2 _ tk Hwf' Hstep Htk) as (tk' & Htk' & Hid' & _).
      split; [exists tk'; split; [done|congruence]|].
      destruct Hc as [Hc|Hc].
      * destruct (step_calls a w1 w2 _ _ Hstep Hc)
          as [H|(t0 & tk0 & Heq & _ & Ht0 & Hd0 & Hc0)]; [by left|].
        right. injection Heq as Heq. subst t0.
        assert (tk0 = tk) by congruence. subst tk0. rewrite Hc0.
        pose proof (wf_heap second w1 Hwf' _ _ Ht0) as Hh.
        rewrite Hd0 in Hh. by rewrite Hh, Hid.
      * destruct (step_calls a w1 w2 _ _ Hstep Hc) as [H|(t & tk0 & ? & _)];
          [by right|done].
    + simpl. split.
      * eexists. rewrite lookup_app_r, Nat.sub_diag by lia. done.
      * left. by rewrite lookup_app_r, Nat.sub_diag by lia.
Qed.

(** X5.  Nobody ever waits for the queue lock.  At every scheduling point the
    lock is free, so a call of [add_request] is never suspended at line 14:
    it is accepted or rejected at once; and the consumer runs as soon as its
    await is over. *)
Theorem lock_is_never_contended w :
  reachable second w ->
  queue_lock w = false /\
  (forall request_id, exists w',
     step second (Submit request_id) w = Some w' /\ queue_lock w' = false /\
     exists c, calls w' = calls w ++ [c] /\
               (c = AddRaised "Server too busy!" \/ c = AddWait (length (heap w)))) /\
  (processor w = PWait -> needs_processing w = true ->
   is_Some (step second Consume w)) /\
  (forall d b, processor w = PSleep d b -> d <= clock w ->
   is_Some (step second Consume w)).
Proof.
  intros Hr. pose proof (wf_reachable second w Hr) as Hwf.
  pose proof (wf_lock second w Hwf) as Hl.
  split; [done|]. split; [|split].
  - intros request_id. rewrite step_submit by done. eexists. split; [done|].
    destruct (3 <=? length (queue w)); simpl.
    + split; [done|]. eexists. split; [done|]. by left.
    + split; [done|]. eexists. split; [done|]. by right.
  - intros Hp Hf. rewrite step_consume_wait, Hf; done.
  - intros d b Hp Hd. rewrite (step_consume_due second d b); done.
Qed.

(** X6.  A request can be left waiting for ever.  When the consumer is
    waiting for the wake signal, the signal is clear and no deferred-wake
    timer is pending, then nothing but a new submission changes that: in
    every later world reached without one, the queue and the tasks are the
    same, the signal is still clear, and the calls of the queued requests are
    still waiting.  (Such a world with a request in the queue is reachable:
    see the witness.) *)
Theorem remainder_is_never_served w sched w' :
  reachable second w -> processor w = PWait -> needs_processing w = false ->
  (forall k d o, timers w !! k <> Some (DSleep d o)) ->
  Forall not_submit sched -> exec second sched w = Some w' ->
  queue w' = queue w /\ heap w' = heap w /\ needs_processing w' = false /\
  (processor w' = PWait \/ processor w' = PCancelled) /\
  forall t, t ∈ queue w ->
    (exists tk, heap w' !! t = Some tk /\ task_done_event tk = false /\
                task_result tk = None) /\
    forall c, calls w !! c = Some (AddWait t) ->
              calls w' !! c = Some (AddWait t).
Proof.
  intros Hr Hp Hf Ht Hsched He. pose proof (wf_reachable second w Hr) as Hwf.
  assert (Hgen : forall w1,
    wf second w1 ->
    (queue w1 = queue w /\ heap w1 = heap w /\ needs_processing w1 = false /\
     (processor w1 = PWait \/ processor w1 = PCancelled) /\
     (forall k d o, timers w1 !! k <> Some (DSleep d o)) /\
     (forall c t, t ∈ queue w -> calls w !! c = Some (AddWait t) ->
                  calls w1 !! c = Some (AddWait t))) ->
    exec second sched w1 = Some w' ->
    queue w' = queue w /\ heap w' = heap w /\ needs_processing w' = false /\
    (processor w' = PWait \/ processor w' = PCancelled) /\
    (forall c t, t ∈ queue w -> calls w !! c = Some (AddWait t) ->
                 calls w' !! c = Some (AddWait t))).
  { clear He. induction Hsched as [|a sched Ha Hsched IH];
      intros w1 Hwf1 (Hq & Hh & Hf1 & Hp1 & Ht1 & Hc1) He.
    - simpl in He. by simplify_eq.
    - rewrite exec_cons in He.
      destruct (step second a w1) as [w2|] eqn:Hs; [|done].
      apply (IH w2); [by eapply wf_step| |done].
      apply (step_cases second) in Hs; [|done].
      destruct Hs; simpl; try done.
      + split; [done|]. split; [done|]. split; [done|]. split; [done|].
        split; [done|]. intros c' t' Hin Hc'.
        destruct (decide (c' = c)) as [->|Hne].
        * pose proof (Hc1 c t' Hin Hc') as Hc2. rewrite H in Hc2.
          injection Hc2 as ->.
          destruct (wf_pending second w1 Hwf1 t') as (tk' & Htk' & Hd').
          { apply elem_of_app. right. by rewrite Hq. }
          congruence.
        * rewrite list_lookup_insert_ne by done. eauto.
      + by apply Ht1 in H.
      + congruence.
      + destruct Hp1; congruence.
      + destruct Hp1; congruence.
      + split; [done|]. split; [done|]. split; [done|]. split; [by right|]. done. }
  destruct (Hgen w Hwf) as (Hq & Hh & Hf' & Hp' & Hc'); [|done|].
  { split; [done|]. split; [done|]. split; [done|]. split; [by left|]. done. }
  split; [done|]. split; [done|]. split; [done|]. split; [done|].
  intros t Hin. split; [|by eauto].
  destruct (wf_pending second w Hwf t) as (tk & Htk & Hd).
  { apply elem_of_app. by right. }
  exists tk. rewrite Hh. split; [done|]. split; [done|].
  pose proof (wf_heap second w Hwf t tk Htk) as Hres. by rewrite Hd in Hres.
Qed.

(** *** Prompt schedules

    The event loop runs every coroutine that is ready before it lets time
    pass.  A schedule is prompt when its clock ticks happen only in worlds
    where nothing is ready: the consumer's await is not over, no timer is due
    and no call has its completion signal set. *)

Definition consumer_ready (w : world) : bool :=
  match processor w with
  | PWait => needs_processing w
  | PSleep wake_at _ => wake_at <=? clock w
  | PCancelled => false
  end.

Definition timer_due (w : world) (tm : delayed) : bool :=
  match tm with
  | DSleep wake_at _ => wake_at <=? clock w
  | DDone => false
  end.

Definition call_ready (w : world) (c : call) : bool :=
  match c with
  | AddWait t =>
      match heap w !! t with
      | Some tk => task_done_event tk
      | None => false
      end
  | _ => false
  end.

Definition quiescent (w : world) : bool :=
  negb (consumer_ready w)
  && forallb (fun tm => negb (timer_due w tm)) (timers w)
  && forallb (fun c => negb (call_ready w c)) (calls w).

Definition pstep (a : action) (w : world) : option world :=
  match a with
  | Tick => if quiescent w then step second Tick w else None
  | _ => step second a w
  end.

Fixpoint pexec (sched : list action) (w : world) : option world :=
  match sched with
  | [] => Some w
  | a :: rest =>
      match pstep a w with
      | Some w' => pexec rest w'
      | None => None
      end
  end.

Lemma pstep_step a w w' : pstep a w = Some w' -> step second a w = Some w'.
Proof. destruct a; simpl; try done. by destruct (quiescent w). Qed.

Lemma pexec_exec sched : forall w w',
  pexec sched w = Some w' -> exec second sched w = Some w'.
Proof.
  induction sched as [|a sched IH]; intros w w' He; simpl in *; [done|].
  destruct (pstep a w) as [w1|] eqn:Hs; [|done].
  rewrite (pstep_step _ _ _ Hs). by apply IH.
Qed.

Lemma quiescent_consumer w : quiescent w = true -> consumer_ready w = false.
Proof.
  unfold quiescent. intros H. apply andb_prop in H as [H _].
  apply andb_prop in H as [H _]. by destruct (consumer_ready w).
Qed.

Lemma quiescent_timer w k d o :
  quiescent w = true -> timers w !! k = Some (DSleep d o) -> clock w < d.
Proof.
  unfold quiescent. intros H Hk. apply andb_prop in H as [H _].
  apply andb_prop in H as [_ H]. rewrite forallb_forall in H.
  specialize (H (DSleep d o)). simpl in H.
  destruct (d <=? clock w) eqn:E; [|by apply Nat.leb_gt in E].
  assert (false = true); [|done]. apply H.
  apply list_elem_of_In. by eapply list_elem_of_lookup_2.
Qed.

Lemma quiescent_call w c t tk :
  quiescent w = true -> calls w !! c = Some (AddWait t) ->
  heap w !! t = Some tk -> task_done_event tk = false.
Proof.
  unfold quiescent. intros H Hc Ht. apply andb_prop in H as [_ H].
  rewrite forallb_forall in H. specialize (H (AddWait t)). simpl in H.
  rewrite Ht in H. destruct (task_done_event tk); [|done].
  assert (false = true); [|done]. apply H.
  apply list_elem_of_In. by eapply list_elem_of_lookup_2.
Qed.

Lemma step_clock_same a w w' :
  step_case second w a w' -> a <> Tick -> clock w' = clock w.
Proof.
  intros Hc Ha. destruct Hc; simpl; try done.
  - unfold woken. by destruct (queue w).
  - unfold woken. simpl. by destruct (queue w).
Qed.

(** *** Following one request that arrived at an empty queue *)

Section Track.

(** The request: arrival time, task, call, id, and whether the consumer was
    waiting for the wake signal when it arrived. *)
Variables (t0 t c : nat) (request_id : string) (idle : bool).

Definition limit : nat := t0 + (if idle then 3 else 4) * second.

(** The request is at the head of the queue; its own timer is pending or the
    wake signal is set. *)
Definition queued (w : world) : Prop :=
  (exists rest, queue w = t :: rest) /\
  calls w !! c = Some (AddWait t) /\
  (((exists k, timers w !! k = Some (DSleep (t0 + 1 * second) t)) /\
    clock w <= t0 + 1 * second) \/
   needs_processing w = true) /\
  match processor w with
  | PWait => clock w <= t0 + 1 * second
  | PSleep d _ =>
      idle = false /\ d <= t0 + 2 * second /\ clock w <= t0 + 2 * second
  | PCancelled => False
  end.

(** The request is in the batch being processed. *)
Definition in_flight (w : world) : Prop :=
  (exists d b, processor w = PSleep d b /\ t ∈ b /\ d <= limit /\ clock w <= d) /\
  calls w !! c = Some (AddWait t).

(** The request is complete; its call has returned, or is about to. *)
Definition served (w : world) : Prop :=
  (exists tk, heap w !! t = Some tk /\ task_done_event tk = true) /\
  ((calls w !! c = Some (AddWait t) /\ clock w <= limit) \/
   calls w !! c = Some (AddReturned (Some ("Processed " +:+ request_id)))).

Definition track (w : world) : Prop :=
  (exists tk, heap w !! t = Some tk /\ task_id tk = request_id) /\
  (queued w \/ in_flight w \/ served w).

Lemma limit_ge : t0 + 3 * second <= limit.
Proof. unfold limit. destruct idle; lia. Qed.

Lemma queued_step a w w' :
  wf second w -> queued w -> step_case second w a w' ->
  a <> Cancel -> (a = Tick -> quiescent w = true) ->
  queued w' \/ in_flight w'.
Proof.
  intros Hwf ([rest Hq] & Hcall & Harm & Hproc) Hc Hcancel Htick.
  pose proof limit_ge as Hlim.
  assert (Hpend : forall tk, heap w !! t = Some tk -> task_done_event tk = false).
  { intros tk Htk. destruct (wf_pending second w Hwf t) as (tk' & Htk' & Hd).
    - apply elem_of_app. right. rewrite Hq. left.
    - congruence. }
  assert (Hc_lt : c < length (calls w)) by (by eapply lookup_lt_Some).
  destruct Hc.
  - left. unfold queued, rejected. simpl. rewrite lookup_app_l by done.
    split; [by exists rest|]. done.
  - left. unfold queued. simpl. rewrite lookup_app_l by done.
    assert (E : (1 <=? length (queue w)) = true).
    { apply Nat.leb_le. rewrite Hq. simpl. lia. }
    rewrite E, Hq. split; [by exists (rest ++ [length (heap w)])|].
    split; [done|]. split; [by right|]. done.
  - left. unfold queued. simpl. split; [by exists rest|].
    destruct (decide (c0 = c)) as [->|Hne].
    + rewrite Hcall in H. injection H as <-. apply Hpend in H0. congruence.
    + rewrite list_lookup_insert_ne by done. done.
  - left. unfold queued. simpl. rewrite Hq. split; [by exists rest|].
    split; [done|]. split; [by right|]. done.
  - right. unfold in_flight, woken. rewrite Hq. simpl.
    split; [|done]. rewrite H in Hproc. do 2 eexists. split; [done|].
    split; [left|]. lia.
  - right. unfold in_flight, woken. simpl. rewrite Hq. simpl.
    split; [|done]. rewrite H in Hproc. destruct Hproc as (Hidle & Hd & Hck).
    do 2 eexists. split; [done|]. split; [left|].
    unfold limit. rewrite Hidle. lia.
  - left. unfold queued. simpl. split; [by exists rest|]. split; [done|].
    destruct Harm as [Harm|Hf]; [|congruence].
    split; [by left|]. by destruct Harm.
  - done.
  - specialize (Htick eq_refl).
    pose proof (quiescent_consumer w Htick) as Hready.
    unfold consumer_ready in Hready.
    left. unfold queued. simpl. split; [by exists rest|]. split; [done|].
    assert (Harm' :
      ((exists k, timers w !! k = Some (DSleep (t0 + 1 * second) t)) /\
       S (clock w) <= t0 + 1 * second) \/ needs_processing w = true).
    { destruct Harm as [[[k Hk] _]|Hf]; [|by right].
      left. split; [by exists k|].
      pose proof (quiescent_timer w k _ _ Htick Hk). lia. }
    split; [done|].
    destruct (processor w) as [|d b|]; [| |done].
    + destruct Harm' as [[_ ?]|Hf]; [done|congruence].
    + apply Nat.leb_gt in Hready. destruct Hproc as (? & ? & ?).
      split; [done|]. split; [done|]. lia.
Qed.

Lemma in_flight_step a w w' :
  wf second w -> in_flight w -> step_case second w a w' ->
  a <> Cancel -> (a = Tick -> quiescent w = true) ->
  in_flight w' \/ served w'.
Proof.
  intros Hwf ((d & b & Hp & Hin & Hd & Hck) & Hcall) Hc Hcancel Htick.
  assert (Hpend : forall tk, heap w !! t = Some tk -> task_done_event tk = false).
  { intros tk Htk. destruct (wf_pending second w Hwf t) as (tk' & Htk' & Hd').
    - apply elem_of_app. left. unfold inflight. by rewrite Hp.
    - congruence. }
  assert (Hc_lt : c < length (calls w)) by (by eapply lookup_lt_Some).
  assert (Hserved : forall w1, heap w1 = finish_all b (heap w) ->
            calls w1 = calls w -> clock w1 = clock w -> served w1).
  { intros w1 Hh Hcs Hcl. unfold served. rewrite Hh, Hcs, Hcl.
    destruct (wf_pending second w Hwf t) as (tk & Htk & _).
    { apply elem_of_app. left. unfold inflight. by rewrite Hp. }
    split; [|left; split; [done|lia]].
    exists (finished tk). rewrite finish_all_lookup, decide_True, Htk by done.
    done. }
  destruct Hc.
  - left. unfold in_flight, rejected. simpl. rewrite lookup_app_l by done.
    split; [|done]. by exists d, b.
  - left. unfold in_flight. simpl. rewrite lookup_app_l by done.
    split; [|done]. by exists d, b.
  - left. unfold in_flight. simpl. split; [by exists d, b|].
    destruct (decide (c0 = c)) as [->|Hne].
    + rewrite Hcall in H. injection H as <-. apply Hpend in H0. congruence.
    + rewrite list_lookup_insert_ne by done. done.
  - left. unfold in_flight. simpl. split; [|done]. by exists d, b.
  - congruence.
  - right. rewrite Hp in H. injection H as <- <-. apply Hserved.
    + unfold woken. simpl. by destruct (queue w).
    + unfold woken. simpl. by destruct (queue w).
    + unfold woken. simpl. by destruct (queue w).
  - right. rewrite Hp in H. injection H as <- <-. by apply Hserved.
  - done.
  - specialize (Htick eq_refl).
    pose proof (quiescent_consumer w Htick) as Hready.
    unfold consumer_ready in Hready. rewrite Hp in Hready.
    apply Nat.leb_gt in Hready.
    left. unfold in_flight. simpl. split; [|done]. exists d, b.
    split; [done|]. split; [done|]. split; [done|]. lia.
Qed.

Lemma served_step a w w' :
  wf second w -> (exists tk, heap w !! t = Some tk /\ task_id tk = request_id) ->
  served w -> step_case second w a w' ->
  (a = Tick -> quiescent w = true) ->
  served w'.
Proof.
  intros Hwf (tk0 & Htk0 & Hid) ((tk & Htk & Hd) & Hcall) Hc Htick.
  assert (tk0 = tk) by congruence. subst tk0.
  destruct (step_heap a w w' t tk Hwf Hc Htk) as (tk' & Htk' & _ & _ & Hsame).
  specialize (Hsame Hd). subst tk'.
  split; [by exists tk|].
  destruct Hcall as [[Hcall Hck]|Hcall].
  - destruct (step_calls a w w' c _ Hc Hcall)
      as [Hc'|(t1 & tk1 & Heq & _ & Ht1 & Hd1 & Hc')].
    + left. split; [done|].
      assert (a = Tick \/ a <> Tick) as [->|Hne]
        by (destruct a; (by left) || (by right)).
      * pose proof (quiescent_call w c t tk (Htick eq_refl) Hcall Htk).
        congruence.
      * by rewrite (step_clock_same a w w' Hc Hne).
    + right. injection Heq as <-. assert (tk1 = tk) by congruence. subst tk1.
      rewrite Hc'. pose proof (wf_heap second w Hwf t tk Htk) as Hh.
      rewrite Hd in Hh. by rewrite Hh, Hid.
  - right. destruct (step_calls a w w' c _ Hc Hcall) as [Hc'|(t1 & tk1 & Heq & _)];
      done.
Qed.

Lemma track_step a w w' :
  wf second w -> track w -> step_case second w a w' ->
  a <> Cancel -> (a = Tick -> quiescent w = true) ->
  track w'.
Proof.
  intros Hwf ((tk & Htk & Hid) & Hphase) Hc Hcancel Htick.
  destruct (step_heap a w w' t tk Hwf Hc Htk) as (tk' & Htk' & Hid' & _).
  split; [exists tk'; split; [done|congruence]|].
  destruct Hphase as [Hq|[Hf|Hs]].
  - destruct (queued_step a w w' Hwf Hq Hc Hcancel Htick); eauto.
  - destruct (in_flight_step a w w' Hwf Hf Hc Hcancel Htick); eauto.
  - right; right. apply (served_step a w w'); eauto.
Qed.

Lemma pstep_cases a w w' :
  wf second w -> pstep a w = Some w' ->
  step_case second w a w' /\ (a = Tick -> quiescent w = true).
Proof.
  intros Hwf Hs. split.
  - apply step_cases; [done|]. by apply pstep_step.
  - intros ->. simpl in Hs. by destruct (quiescent w).
Qed.

Lemma track_pexec sched : forall w w',
  Forall (fun a => a <> Cancel) sched ->
  wf second w -> track w -> pexec sched w = Some w' ->
  wf second w' /\ track w'.
Proof.
  induction sched as [|a sched IH]; intros w w' Hsched Hwf Ht He; simpl in He.
  - by simplify_eq.
  - destruct (pstep a w) as [w1|] eqn:Hs; [|done].
    apply Forall_cons in Hsched as [Ha Hsched].
    destruct (pstep_cases a w w1 Hwf Hs) as [Hc Htick].
    apply (IH w1 w' Hsched); [|by eapply track_step|done].
    eapply wf_step; [done|]. by apply pstep_step.
Qed.

End Track.

Lemma forallb_false {A} (f : A -> bool) (l : list A) :
  forallb f l = false -> exists i x, l !! i = Some x /\ f x = false.
Proof.
  induction l as [|x l IH]; simpl; [done|].
  destruct (f x) eqn:E; simpl.
  - intros (i & y & Hi & Hy)%IH. by exists (S i), y.
  - intros _. by exists 0, x.
Qed.

Lemma pstep_not_tick a w : a <> Tick -> pstep a w = step second a w.
Proof. by destruct a. Qed.

(** X8.  Under a prompt schedule the program is never stuck: in every
    reachable world either the clock can advance or one of the coroutines
    (the consumer, a timer, a call whose request is complete) runs. *)
Theorem prompt_schedules_progress w :
  reachable second w ->
  exists a w', not_submit a /\ a <> Cancel /\ pstep a w = Some w'.
Proof.
  intros Hr. pose proof (wf_reachable second w Hr) as Hwf.
  destruct (quiescent w) eqn:Hq.
  { exists Tick. eexists. split; [done|]. split; [done|]. simpl. by rewrite Hq. }
  unfold quiescent in Hq.
  apply andb_false_iff in Hq as [Hq|Hq]; [apply andb_false_iff in Hq as [Hq|Hq]|].
  - apply negb_false_iff in Hq. unfold consumer_ready in Hq.
    exists Consume. destruct (processor w) as [|d b|] eqn:Hp; [| |done].
    + eexists. split; [done|]. split; [done|]. rewrite pstep_not_tick by done.
      rewrite step_consume_wait, Hq; [done| |done]. by apply (wf_lock second).
    + apply Nat.leb_le in Hq. eexists. split; [done|]. split; [done|].
      rewrite pstep_not_tick by done.
      by rewrite (step_consume_due second d b).
  - apply forallb_false in Hq as (k & tm & Hk & Hdue).
    apply negb_false_iff in Hdue. destruct tm as [d o|]; [|done].
    simpl in Hdue. apply Nat.leb_le in Hdue.
    exists (Fire k). eexists. split; [done|]. split; [done|].
    rewrite pstep_not_tick by done.
    by rewrite (step_fire_due second k d o).
  - apply forallb_false in Hq as (c & x & Hc & Hready).
    apply negb_false_iff in Hready. destruct x as [t| |]; try done.
    simpl in Hready. destruct (heap w !! t) as [tk|] eqn:Ht; [|done].
    exists (Resume c). eexists. split; [done|]. split; [done|].
    rewrite pstep_not_tick by done.
    rewrite step_resume, Hc, Ht, Hready. done.
Qed.

(** X9.  A request that arrives at an empty queue is served within a fixed
    time, whatever else is submitted afterwards, as long as the consumer is
    not cancelled and the schedule is prompt.  If the consumer was waiting
    for the wake signal the request is in a batch after at most 1 time unit
    (the deferred-wake delay) and its call has returned
    ["Processed " ++ request_id] after at most 1 + 2; if a batch was in
    flight, after at most 2 and 2 + 2 time units. *)
Theorem lone_request_is_served request_id w w1 sched w' :
  reachable second w -> queue w = [] -> processor w <> PCancelled ->
  step second (Submit request_id) w = Some w1 ->
  Forall (fun a => a <> Cancel) sched -> pexec sched w1 = Some w' ->
  let late := match processor w with PWait => 1 | _ => 2 end in
  (clock w + late * second < clock w' ->
   length (heap w) ∈ batched (log w') /\ length (heap w) ∉ queue w') /\
  (clock w + (late + 2) * second < clock w' ->
   calls w' !! length (calls w)
     = Some (AddReturned (Some ("Processed " +:+ request_id)))).
Proof.
  intros Hr Hq Hp Hs Hsched He. pose proof (wf_reachable second w Hr) as Hwf.
  rewrite step_submit_ok in Hs; [|by apply (wf_lock second)|rewrite Hq; simpl; lia].
  injection Hs as <-.
  set (idle := match processor w with PWait => true | _ => false end).
  assert (Hwf1 : wf second (accepted second request_id w)).
  { apply wf_accepted; [done|]. rewrite Hq. simpl. lia. }
  assert (Ht : track (clock w) (length (heap w)) (length (calls w))
                 request_id idle (accepted second request_id w)).
  { split.
    - eexists. simpl. rewrite lookup_app_r, Nat.sub_diag by lia. done.
    - left. unfold queued. simpl. rewrite Hq. simpl.
      split; [by exists []|].
      split. { by rewrite lookup_app_r, Nat.sub_diag by lia. }
      split.
      { left. split; [|lia]. exists (length (timers w)).
        by rewrite lookup_app_r, Nat.sub_diag by lia. }
      subst idle. destruct (processor w) as [|d b|] eqn:Hpw; [lia| |done].
      split; [done|]. split; [|lia].
      pose proof (wf_sleep second w Hwf d b Hpw). lia. }
  destruct (track_pexec _ _ _ _ _ sched _ w' Hsched Hwf1 Ht He)
    as (Hwf' & (tk & Htk & Hid) & Hphase).
  assert (Hlate : (if idle then 1 else 2) = match processor w with PWait => 1 | _ => 2 end).
  { subst idle. by destruct (processor w). }
  simpl. rewrite <- Hlate. clear Hlate.
  assert (Hqueued : queued (clock w) (length (heap w)) (length (calls w)) idle w' ->
                    clock w' <= clock w + (if idle then 1 else 2) * second).
  { intros (_ & _ & _ & Hproc). destruct (processor w') as [|d b|]; [|..].
    - destruct idle; lia.
    - destruct Hproc as (-> & _ & ?). lia.
    - done. }
  split.
  - intros Hlt.
    assert (Hnq : length (heap w) ∉ queue w').
    { destruct Hphase as [Hph|[Hph|Hph]].
      - apply Hqueued in Hph. lia.
      - destruct Hph as ((d & b & Hp' & Hin & _) & _).
        pose proof (wf_NoDup second w' Hwf') as Hnd.
        apply NoDup_app in Hnd as (_ & Hdisj & _).
        apply Hdisj. unfold inflight. by rewrite Hp'.
      - destruct Hph as ((tk' & Htk' & Hd) & _). intros Hin.
        destruct (wf_pending second w' Hwf' (length (heap w))) as (tk2 & ? & ?).
        { apply elem_of_app. by right. }
        congruence. }
    split; [|done].
    assert (Hin : length (heap w) ∈ seq 0 (length (heap w'))).
    { apply elem_of_seq. apply lookup_lt_Some in Htk. lia. }
    rewrite <- (wf_fifo second w' Hwf') in Hin.
    by apply elem_of_app in Hin as [Hin|Hin].
  - intros Hlt. destruct Hphase as [Hph|[Hph|Hph]].
    + apply Hqueued in Hph. destruct idle; lia.
    + destruct Hph as ((d & b & _ & _ & Hd & Hck) & _).
      unfold limit in Hd. destruct idle; lia.
    + destruct Hph as (_ & [[_ Hck]|Hret]); [|done].
      unfold limit in Hck. destruct idle; lia.
Qed.

(** *** [client_request] *)

(** [f"{result}"] for the value [add_request] returns. *)
Definition format_result (v : option string) : string :=
  match v with
  | Some s => s
  | None => "None"
  end.

(** [client_request], lines 70-77: the line it prints when its call of
    [add_request] is over.  Both ways out of the [try] end in a [print]; the
    function itself raises nothing. *)
Definition client_request_report (request_id : string) (c : call)
  : option string :=
  match c with
  | AddWait _ => None
  | AddReturned v =>
      Some ("Client " +:+ request_id +:+ " received: " +:+ format_result v)
  | AddRaised msg =>
      Some ("Client " +:+ request_id +:+ " got error: " +:+ msg)
  end.

(** X10.  [client_request] ends in one of two lines only.  A client whose
    request was submitted to a queue of fewer than 3 requests prints, when its
    call is over, "Client <id> received: Processed <id>", with its own id; a
    client that met a full queue prints, at once,
    "Client <id> got error: Server too busy!".  Until then it prints
    nothing. *)
Theorem client_request_reports request_id w w1 sched w' :
  reachable second w -> step second (Submit request_id) w = Some w1 ->
  exec second sched w1 = Some w' ->
  exists c, calls w' !! length (calls w) = Some c /\
    if 3 <=? length (queue w)
    then client_request_report request_id c
         = Some ("Client " +:+ request_id +:+ " got error: Server too busy!")
    else client_request_report request_id c = None \/
         client_request_report request_id c
         = Some ("Client " +:+ request_id +:+ " received: Processed "
                 +:+ request_id).
Proof.
  intros Hr Hs He. pose proof (wf_reachable second w Hr) as Hwf.
  pose proof (wf_step second _ _ _ Hwf Hs) as Hwf1.
  rewrite step_submit in Hs by by apply (wf_lock second). simplify_eq.
  set (P := fun w1 : world =>
    exists c, calls w1 !! length (calls w) = Some c /\
      if 3 <=? length (queue w)
      then c = AddRaised "Server too busy!"
      else (exists tk, heap w1 !! length (heap w) = Some tk /\
                       task_id tk = request_id) /\
           (c = AddWait (length (heap w)) \/
            c = AddReturned (Some ("Processed " +:+ request_id)))).
  assert (HP : P w').
  { apply (exec_inv P) with (sched := sched)
      (w0 := if 3 <=? length (queue w) then rejected w
             else accepted second request_id w); [|done| |done].
    - intros a w1 w2 Hwf' (c & Hc & Hcase) Hstep. unfold P.
      destruct (step_calls a w1 w2 _ _ Hstep Hc)
        as [Hc'|(t0 & tk0 & Heq & _ & Ht0 & Hd0 & Hc')].
      + exists c. split; [done|].
        destruct (3 <=? length (queue w)); [done|].
        destruct Hcase as ((tk & Htk & Hid) & Hcase).
        destruct (step_heap a w1 w2 _ tk Hwf' Hstep Htk) as (tk' & Htk' & Hid' & _).
        split; [exists tk'; split; [done|congruence]|done].
      + eexists. split; [done|].
        destruct (3 <=? length (queue w)); [by subst|].
        destruct Hcase as ((tk & Htk & Hid) & [Hcase|Hcase]); [|by subst].
        subst c. injection Heq as <-.
        assert (tk0 = tk) by congruence. subst tk0.
        destruct (step_heap a w1 w2 _ tk Hwf' Hstep Htk) as (tk' & Htk' & Hid' & _).
        split; [exists tk'; split; [done|congruence]|].
        right. pose proof (wf_heap second w1 Hwf' _ _ Htk) as Hh.
        rewrite Hd0 in Hh. by rewrite Hh, Hid.
    - unfold P. destruct (3 <=? length (queue w)).
      + eexists. unfold rejected. simpl.
        by rewrite lookup_app_r, Nat.sub_diag by lia.
      + eexists. simpl. rewrite !lookup_app_r, !Nat.sub_diag by lia.
        split; [done|]. split; [by eexists|by left]. }
  destruct HP as (c & Hc & Hcase). exists c. split; [done|].
  destruct (3 <=? length (queue w)); [by subst|].
  destruct Hcase as (_ & [-> | ->]); [by left|by right].
Qed.

End Extras.

(** ** Time passes

    In a prompt run the clock stands still while coroutines are ready.  Only
    finitely many can run in a row: a timer fires once, a call returns once,
    and the consumer, once it has run, is suspended until a timer fires or
    time passes. *)

Section TimePasses.

Variable second : nat.

#[local] Arguments Nat.mul : simpl never.

(** What is left to run before the clock can advance. *)
Fixpoint pending_timers (ts : list delayed) : nat :=
  match ts with
  | [] => 0
  | DSleep _ _ :: ts => S (pending_timers ts)
  | DDone :: ts => pending_timers ts
  end.

Fixpoint waiting_calls (cs : list call) : nat :=
  match cs with
  | [] => 0
  | AddWait _ :: cs => S (waiting_calls cs)
  | _ :: cs => waiting_calls cs
  end.

Definition consumer_rank (w : world) : nat :=
  match processor w with
  | PWait => if needs_processing w then 1 else 0
  | PSleep wake_at _ => if wake_at <=? clock w then 2 else 0
  | PCancelled => 0
  end.

Definition backlog (w : world) : nat :=
  3 * pending_timers (timers w) + waiting_calls (calls w) + consumer_rank w.

Lemma pending_timers_fire ts : forall k d o,
  ts !! k = Some (DSleep d o) ->
  S (pending_timers (<[k := DDone]> ts)) = pending_timers ts.
Proof.
  induction ts as [|tm ts IH]; intros [|k] d o Hk; simplify_eq/=; [done|].
  destruct tm; simpl; f_equal; eauto.
Qed.

Lemma waiting_calls_return cs : forall c t v,
  cs !! c = Some (AddWait t) ->
  S (waiting_calls (<[c := AddReturned v]> cs)) = waiting_calls cs.
Proof.
  induction cs as [|x cs IH]; intros [|c] t v Hc; simplify_eq/=; [done|].
  destruct x; simpl; f_equal; eauto.
Qed.

Lemma consumer_rank_woken w :
  0 < second -> consumer_rank (woken second w) = 0.
Proof.
  intros Hpos. unfold woken, consumer_rank.
  destruct (queue w); simpl; [done|].
  destruct (clock w + 2 * second <=? clock w) eqn:E; [|done].
  apply Nat.leb_le in E. lia.
Qed.

(** A world that is not quiescent has a coroutine to run, and running it
    reduces the backlog. *)
Lemma ready_step w :
  0 < second -> wf second w -> quiescent w = false ->
  exists a w', not_submit a /\ a <> Cancel /\ a <> Tick /\
    step second a w = Some w' /\ backlog w' < backlog w.
Proof.
  intros Hpos Hwf Hq. unfold quiescent in Hq.
  apply andb_false_iff in Hq as [Hq|Hq]; [apply andb_false_iff in Hq as [Hq|Hq]|].
  - apply negb_false_iff in Hq. unfold consumer_ready in Hq.
    exists Consume. destruct (processor w) as [|d b|] eqn:Hp; [| |done].
    + exists (woken second w). split_and!; try done.
      * rewrite step_consume_wait, Hq; [done| |done]. by apply (wf_lock second).
      * unfold backlog. rewrite consumer_rank_woken by done.
        assert (consumer_rank w = 1) as ->.
        { unfold consumer_rank. by rewrite Hp, Hq. }
        unfold woken. destruct (queue w); simpl; lia.
    + apply Nat.leb_le in Hq.
      exists (if needs_processing w then woken second (completed b w)
              else set_processor PWait (completed b w)).
      split_and!; try done.
      * by rewrite (step_consume_due second d b).
      * assert (consumer_rank w = 2) as Hrank.
        { unfold consumer_rank. rewrite Hp.
          apply Nat.leb_le in Hq. by rewrite Hq. }
        unfold backlog. rewrite Hrank.
        destruct (needs_processing w) eqn:Hf.
        -- rewrite consumer_rank_woken by done.
           unfold woken. simpl. destruct (queue w); simpl; lia.
        -- unfold consumer_rank. simpl. rewrite Hf. lia.
  - apply forallb_false in Hq as (k & tm & Hk & Hdue).
    apply negb_false_iff in Hdue. destruct tm as [d o|]; [|done].
    simpl in Hdue. apply Nat.leb_le in Hdue.
    exists (Fire k), (fired k w). split_and!; try done.
    + by rewrite (step_fire_due second k d o).
    + unfold backlog. simpl.
      pose proof (pending_timers_fire (timers w) k d o Hk) as Hpend.
      assert (consumer_rank (fired k w) <= consumer_rank w + 1).
      { unfold consumer_rank. simpl.
        destruct (processor w); [|lia|lia].
        destruct (queue w), (needs_processing w); lia. }
      lia.
  - apply forallb_false in Hq as (c & x & Hc & Hready).
    apply negb_false_iff in Hready. destruct x as [t| |]; try done.
    simpl in Hready. destruct (heap w !! t) as [tk|] eqn:Ht; [|done].
    exists (Resume c), (returned c t (task_result tk) w). split_and!; try done.
    + rewrite step_resume, Hc, Ht, Hready. done.
    + unfold backlog. simpl.
      pose proof (waiting_calls_return (calls w) c t (task_result tk) Hc).
      assert (consumer_rank (returned c t (task_result tk) w) = consumer_rank w)
        by done.
      lia.
Qed.

Definition internal (a : action) : Prop := not_submit a /\ a <> Cancel.

Lemma pexec_app s1 : forall s2 w,
  pexec second (s1 ++ s2) w =
    match pexec second s1 w with
    | Some w1 => pexec second s2 w1
    | None => None
    end.
Proof.
  induction s1 as [|a s1 IH]; intros s2 w; simpl; [done|].
  destruct (pstep second a w); [apply IH|done].
Qed.

(** The ready coroutines can all be run, without time passing. *)
Lemma settles n : forall w,
  0 < second -> wf second w -> backlog w < n ->
  exists sched w', Forall internal sched /\ pexec second sched w = Some w' /\
    quiescent w' = true /\ clock w' = clock w.
Proof.
  induction n as [|n IH]; intros w Hpos Hwf Hlt; [lia|].
  destruct (quiescent w) eqn:Hq.
  { exists [], w. by split_and!. }
  destruct (ready_step w Hpos Hwf Hq) as (a & w1 & Ha & Hcancel & Htick & Hs & Hless).
  assert (Hwf1 : wf second w1) by (by eapply wf_step).
  assert (Hlt1 : backlog w1 < n) by lia.
  destruct (IH w1 Hpos Hwf1 Hlt1) as (sched & w' & Hsched & He & Hq' & Hck).
  exists (a :: sched), w'. split_and!; try done.
  - by constructor.
  - simpl. by rewrite (pstep_not_tick second a w Htick), Hs.
  - rewrite Hck. apply (step_clock_same second a w w1); [|done].
    by apply step_cases.
Qed.

(** So the clock can always advance, by any amount. *)
Lemma time_passes n : forall w,
  0 < second -> wf second w ->
  exists sched w', Forall internal sched /\ pexec second sched w = Some w' /\
    clock w' = clock w + n.
Proof.
  induction n as [|n IH]; intros w Hpos Hwf.
  { exists [], w. split_and!; (done || lia). }
  destruct (settles (S (backlog w)) w Hpos Hwf (Nat.lt_succ_diag_r _))
    as (s1 & w1 & Hs1 & He1 & Hq1 & Hck1).
  assert (Hwf1 : wf second w1).
  { eapply wf_exec; [done|]. by apply pexec_exec. }
  assert (Hwf2 : wf second (set_clock (S (clock w1)) w1)) by (by apply wf_tick).
  destruct (IH _ Hpos Hwf2) as (s2 & w2 & Hs2 & He2 & Hck2).
  exists (s1 ++ Tick :: s2), w2. split_and!.
  - apply Forall_app. split; [done|]. by constructor.
  - rewrite pexec_app, He1. simpl. by rewrite Hq1.
  - rewrite Hck2. simpl. lia.
Qed.

End TimePasses.

(** ** Liveness of a request that arrives at an empty queue *)

Section Liveness.

Variable second : nat.


End Liveness.

(** ** Three submissions in a row

    Scenario C of [main]: three calls of [add_request] are started one after
    the other, with nothing running in between, while the queue is empty and
    the consumer is waiting for the wake signal.  The section follows the
    three requests through every prompt run that contains no further
    submission and no cancellation. *)

Section Burst.

Variable second : nat.

#[local] Arguments Nat.mul : simpl never.

(** The time of the arrival, the first of the three tasks, the first of the
    three calls, the timers that existed before, and the three ids. *)
Variables (t0 t c : nat) (ts0 : list delayed) (r1 r2 r3 : string).

(** The timers after the third submission: one more than before, created by
    the first submission. *)
Definition burst_timers : list delayed :=
  ts0 ++ [DSleep (t0 + 1 * second) t].

Definition own_timer_pending (w : world) : Prop :=
  timers w !! length ts0 = Some (DSleep (t0 + 1 * second) t).

(** One of those timers has fired. *)
Definition a_timer_fired (w : world) : Prop :=
  exists k d o, burst_timers !! k = Some (DSleep d o) /\
                timers w !! k = Some DDone.

Definition has_id (t' : ref) (r : string) (w : world) : Prop :=
  exists tk, heap w !! t' = Some tk /\ task_id tk = r.

Definition still_waiting (c' : nat) (t' : ref) (w : world) : Prop :=
  calls w !! c' = Some (AddWait t').

Definition has_returned (c' : nat) (r : string) (w : world) : Prop :=
  calls w !! c' = Some (AddReturned (Some ("Processed " +:+ r))).

Definition is_complete (t' : ref) (w : world) : Prop :=
  exists tk, heap w !! t' = Some tk /\ task_done_event tk = true.

(** Task [t'] is complete; its call has returned, or returns before the
    clock passes [due]. *)
Definition complete_by (due c' : nat) (t' : ref) (r : string) (w : world)
  : Prop :=
  is_complete t' w /\
  ((still_waiting c' t' w /\ clock w <= due) \/ has_returned c' r w).

(** The three requests are in the queue, the wake signal is set and the
    consumer is about to run. *)
Definition burst_arrived (w : world) : Prop :=
  queue w = [t; t + 1; t + 2] /\ processor w = PWait /\
  needs_processing w = true /\ clock w = t0 /\ own_timer_pending w /\
  still_waiting c t w /\ still_waiting (c + 1) (t + 1) w /\
  still_waiting (c + 2) (t + 2) w.

(** The first two are the batch in flight, the third is alone in the queue.
    The wake signal is clear and the first request's timer is pending, or a
    timer has fired and the signal is set. *)
Definition first_batch_in_flight (w : world) : Prop :=
  queue w = [t + 2] /\ processor w = PSleep (t0 + 2 * second) [t; t + 1] /\
  clock w <= t0 + 2 * second /\
  still_waiting c t w /\ still_waiting (c + 1) (t + 1) w /\
  still_waiting (c + 2) (t + 2) w /\
  ((needs_processing w = false /\ own_timer_pending w /\
    clock w <= t0 + 1 * second) \/
   (needs_processing w = true /\ a_timer_fired w)).

(** The first two are complete, the third is the batch in flight. *)
Definition second_batch_in_flight (w : world) : Prop :=
  queue w = [] /\ processor w = PSleep (t0 + 4 * second) [t + 2] /\
  t0 + 2 * second <= clock w <= t0 + 4 * second /\
  needs_processing w = false /\
  complete_by (t0 + 2 * second) c t r1 w /\
  complete_by (t0 + 2 * second) (c + 1) (t + 1) r2 w /\
  still_waiting (c + 2) (t + 2) w.

(** All three are complete and the consumer is waiting again. *)
Definition burst_served (w : world) : Prop :=
  queue w = [] /\ processor w = PWait /\ needs_processing w = false /\
  t0 + 4 * second <= clock w /\
  is_complete t w /\ is_complete (t + 1) w /\
  has_returned c r1 w /\ has_returned (c + 1) r2 w /\
  complete_by (t0 + 4 * second) (c + 2) (t + 2) r3 w.

Definition burst (w : world) : Prop :=
  (has_id t r1 w /\ has_id (t + 1) r2 w /\ has_id (t + 2) r3 w) /\
  (forall k d o, timers w !! k = Some (DSleep d o) ->
                 burst_timers !! k = Some (DSleep d o)) /\
  (burst_arrived w \/ first_batch_in_flight w \/
   second_batch_in_flight w \/ burst_served w).

Lemma has_id_step a w w' t' r :
  wf second w -> step_case second w a w' -> has_id t' r w -> has_id t' r w'.
Proof.
  intros Hwf Hc (tk & Htk & Hid).
  destruct (step_heap second a w w' t' tk Hwf Hc Htk) as (tk' & Htk' & Hid' & _).
  exists tk'. split; [done|congruence].
Qed.

Lemma is_complete_step a w w' t' :
  wf second w -> step_case second w a w' -> is_complete t' w -> is_complete t' w'.
Proof.
  intros Hwf Hc (tk & Htk & Hd).
  destruct (step_heap second a w w' t' tk Hwf Hc Htk) as (tk' & Htk' & _ & _ & Hsame).
  exists tk'. split; [done|]. by rewrite (Hsame Hd).
Qed.

Lemma has_returned_step a w w' c' r :
  step_case second w a w' -> has_returned c' r w -> has_returned c' r w'.
Proof.
  intros Hc Hret. unfold has_returned in *.
  by destruct (step_calls second a w w' c' _ Hc Hret) as [?|(? & ? & ? & _)].
Qed.

(** A call whose request is in the queue or in flight keeps waiting. *)
Lemma still_waiting_step a w w' c' t' :
  wf second w -> step_case second w a w' -> t' ∈ inflight w ++ queue w ->
  still_waiting c' t' w -> still_waiting c' t' w'.
Proof.
  intros Hwf Hc Hin Hcall. unfold still_waiting in *.
  destruct (step_calls second a w w' c' _ Hc Hcall)
    as [?|(t1 & tk1 & Heq & _ & Ht1 & Hd1 & _)]; [done|].
  injection Heq as <-.
  destruct (wf_pending second w Hwf t' Hin) as (tk & Htk & Hd). congruence.
Qed.

Lemma complete_by_step due a w w' c' t' r :
  wf second w -> step_case second w a w' ->
  (a = Tick -> quiescent w = true) ->
  has_id t' r w -> complete_by due c' t' r w -> complete_by due c' t' r w'.
Proof.
  intros Hwf Hc Htick (tk0 & Htk0 & Hid) [Hdone Hcall].
  split; [by eapply is_complete_step|].
  destruct Hdone as (tk & Htk & Hd).
  assert (tk0 = tk) by congruence. subst tk0.
  destruct Hcall as [[Hcall Hck]|Hret]; [|right; by eapply has_returned_step].
  unfold still_waiting, has_returned in *.
  destruct (step_calls second a w w' c' _ Hc Hcall)
    as [Hc'|(t1 & tk1 & Heq & _ & Ht1 & Hd1 & Hc')].
  - left. split; [done|].
    assert (a = Tick \/ a <> Tick) as [->|Hne]
      by (destruct a; (by left) || (by right)).
    + pose proof (quiescent_call w c' t' tk (Htick eq_refl) Hcall Htk).
      congruence.
    + by rewrite (step_clock_same second a w w' Hc Hne).
  - right. injection Heq as <-. assert (tk1 = tk) by congruence. subst tk1.
    rewrite Hc'. pose proof (wf_heap second w Hwf t' tk Htk) as Hh.
    rewrite Hd in Hh. by rewrite Hh, Hid.
Qed.

Lemma burst_arrived_step a w w' :
  0 < second -> wf second w -> burst_arrived w -> step_case second w a w' ->
  not_submit a -> a <> Cancel -> (a = Tick -> quiescent w = true) ->
  burst_arrived w' \/ first_batch_in_flight w'.
Proof.
  intros Hpos Hwf (Hq & Hp & Hf & Hck & Hown & Hw0 & Hw1 & Hw2) Hc Hs Hcancel Htick.
  assert (Hw0' : still_waiting c t w').
  { eapply still_waiting_step; [done|done| |done].
    apply elem_of_app. right. rewrite Hq. set_solver. }
  assert (Hw1' : still_waiting (c + 1) (t + 1) w').
  { eapply still_waiting_step; [done|done| |done].
    apply elem_of_app. right. rewrite Hq. set_solver. }
  assert (Hw2' : still_waiting (c + 2) (t + 2) w').
  { eapply still_waiting_step; [done|done| |done].
    apply elem_of_app. right. rewrite Hq. set_solver. }
  unfold own_timer_pending in Hown.
  destruct Hc; [done|done|..| |done|].
  - left. by repeat split.
  - left. unfold burst_arrived, own_timer_pending. simpl. rewrite Hq.
    repeat split; try done.
    destruct (decide (k = length ts0)) as [->|Hne].
    + rewrite Hown in H. injection H as <- <-. lia.
    + by rewrite list_lookup_insert_ne.
  - right. unfold first_batch_in_flight, woken, own_timer_pending in *.
    rewrite Hq in *. simpl in *. rewrite Hck.
    repeat split; try done; try lia.
    left. repeat split; try done; lia.
  - congruence.
  - congruence.
  - specialize (Htick eq_refl). apply quiescent_consumer in Htick.
    unfold consumer_ready in Htick. rewrite Hp in Htick. congruence.
Qed.

Lemma first_batch_in_flight_step a w w' :
  0 < second -> wf second w ->
  (forall k d o, timers w !! k = Some (DSleep d o) ->
                 burst_timers !! k = Some (DSleep d o)) ->
  first_batch_in_flight w -> step_case second w a w' ->
  not_submit a -> a <> Cancel -> (a = Tick -> quiescent w = true) ->
  first_batch_in_flight w' \/ second_batch_in_flight w'.
Proof.
  intros Hpos Hwf Hsub (Hq & Hp & Hck & Hw0 & Hw1 & Hw2 & Hflag)
    Hc Hs Hcancel Htick.
  assert (Hin0 : t ∈ inflight w ++ queue w).
  { apply elem_of_app. left. unfold inflight. rewrite Hp. set_solver. }
  assert (Hin1 : t + 1 ∈ inflight w ++ queue w).
  { apply elem_of_app. left. unfold inflight. rewrite Hp. set_solver. }
  assert (Hin2 : t + 2 ∈ inflight w ++ queue w).
  { apply elem_of_app. right. rewrite Hq. set_solver. }
  assert (Hw0' : still_waiting c t w') by (by eapply still_waiting_step).
  assert (Hw1' : still_waiting (c + 1) (t + 1) w')
    by (by eapply still_waiting_step).
  assert (Hw2' : still_waiting (c + 2) (t + 2) w')
    by (by eapply still_waiting_step).
  destruct Hc; [done|done|..| |done|].
  - left. by repeat split.
  - left. unfold first_batch_in_flight. simpl. rewrite Hq.
    repeat split; try done. right. split; [done|].
    exists k, d, o. split; [by apply Hsub|]. simpl.
    apply list_lookup_insert_eq. by eapply lookup_lt_Some.
  - congruence.
  - right. rewrite Hp in H. injection H as Hd Hb.
    assert (Hnow : clock w = t0 + 2 * second) by lia.
    destruct (wf_pending second w Hwf t Hin0) as (tk0 & Htk0 & _).
    destruct (wf_pending second w Hwf (t + 1) Hin1) as (tk1 & Htk1 & _).
    unfold second_batch_in_flight, complete_by, is_complete, still_waiting,
      woken in *.
    simpl. rewrite Hq. simpl. rewrite Hnow.
    split; [done|]. split; [f_equal; lia|]. split; [lia|]. split; [done|].
    split; [|split; [|done]].
    + split; [|left; split; [done|lia]].
      exists (finished tk0). rewrite finish_all_lookup, decide_True, Htk0
        by (rewrite <- Hb; set_solver). done.
    + split; [|left; split; [done|lia]].
      exists (finished tk1). rewrite finish_all_lookup, decide_True, Htk1
        by (rewrite <- Hb; set_solver). done.
  - destruct Hflag as [(_ & _ & Hearly)|[Hf _]]; [|congruence].
    rewrite Hp in H. injection H as Hd Hb. lia.
  - specialize (Htick eq_refl).
    pose proof (quiescent_consumer w Htick) as Hready.
    unfold consumer_ready in Hready. rewrite Hp in Hready.
    apply Nat.leb_gt in Hready.
    left. unfold first_batch_in_flight, own_timer_pending in *. simpl.
    repeat split; try done; try lia.
    destruct Hflag as [(Hf & Hown & _)|Hfired]; [|by right].
    left. repeat split; try done.
    pose proof (quiescent_timer w _ _ _ Htick Hown). lia.
Qed.

Lemma second_batch_in_flight_step a w w' :
  0 < second -> wf second w ->
  has_id t r1 w -> has_id (t + 1) r2 w ->
  second_batch_in_flight w -> step_case second w a w' ->
  not_submit a -> a <> Cancel -> (a = Tick -> quiescent w = true) ->
  second_batch_in_flight w' \/ burst_served w'.
Proof.
  intros Hpos Hwf Hid0 Hid1 (Hq & Hp & Hck & Hf & Hc0 & Hc1 & Hw2)
    Hc Hs Hcancel Htick.
  assert (Hin2 : t + 2 ∈ inflight w ++ queue w).
  { apply elem_of_app. left. unfold inflight. rewrite Hp. set_solver. }
  assert (Hc0' : complete_by (t0 + 2 * second) c t r1 w')
    by (by eapply complete_by_step).
  assert (Hc1' : complete_by (t0 + 2 * second) (c + 1) (t + 1) r2 w')
    by (by eapply complete_by_step).
  assert (Hw2' : still_waiting (c + 2) (t + 2) w')
    by (by eapply still_waiting_step).
  destruct Hc; [done|done|..| |done|].
  - left. unfold second_batch_in_flight. simpl. split_and!; try done; lia.
  - left. unfold second_batch_in_flight. simpl. rewrite Hq.
    split_and!; try done; lia.
  - congruence.
  - congruence.
  - right. rewrite Hp in H. injection H as Hd Hb.
    destruct (wf_pending second w Hwf (t + 2) Hin2) as (tk2 & Htk2 & _).
    destruct Hc0' as [Hd0 [[_ Hlate]|Hr0]]; [simpl in Hlate; lia|].
    destruct Hc1' as [Hd1 [[_ Hlate]|Hr1]]; [simpl in Hlate; lia|].
    unfold burst_served. split_and!; simpl; try done; try lia.
    split.
    + exists (finished tk2). simpl.
      rewrite finish_all_lookup, decide_True, Htk2
        by (rewrite <- Hb; set_solver). done.
    + left. split; [done|]. simpl. lia.
  - specialize (Htick eq_refl).
    pose proof (quiescent_consumer w Htick) as Hready.
    unfold consumer_ready in Hready. rewrite Hp in Hready.
    apply Nat.leb_gt in Hready.
    left. unfold second_batch_in_flight. simpl.
    split_and!; try done; lia.
Qed.

Lemma burst_served_step a w w' :
  wf second w -> has_id (t + 2) r3 w ->
  burst_served w -> step_case second w a w' ->
  not_submit a -> a <> Cancel -> (a = Tick -> quiescent w = true) ->
  burst_served w'.
Proof.
  intros Hwf Hid2 (Hq & Hp & Hf & Hck & Hd0 & Hd1 & Hr0 & Hr1 & Hc2)
    Hc Hs Hcancel Htick.
  assert (Hd0' : is_complete t w') by (by eapply is_complete_step).
  assert (Hd1' : is_complete (t + 1) w') by (by eapply is_complete_step).
  assert (Hr0' : has_returned c r1 w') by (by eapply has_returned_step).
  assert (Hr1' : has_returned (c + 1) r2 w') by (by eapply has_returned_step).
  assert (Hc2' : complete_by (t0 + 4 * second) (c + 2) (t + 2) r3 w')
    by (by eapply complete_by_step).
  destruct Hc; [done|done|..| |done|].
  - unfold burst_served. simpl. by split_and!.
  - unfold burst_served. simpl. rewrite Hq. by split_and!.
  - congruence.
  - congruence.
  - congruence.
  - unfold burst_served. simpl. split_and!; try done. lia.
Qed.

Lemma burst_step a w w' :
  0 < second -> wf second w -> burst w -> pstep second a w = Some w' ->
  not_submit a -> a <> Cancel -> burst w'.
Proof.
  intros Hpos Hwf ((Hid0 & Hid1 & Hid2) & Hsub & Hphase) Hs Ha Hcancel.
  destruct (pstep_cases second a w w' Hwf Hs) as [Hc Htick].
  apply pstep_step in Hs.
  destruct (step_quiet second a w w' Hwf Ha Hs) as (_ & Htimers & _).
  split; [repeat split; by eapply has_id_step|].
  split; [by eauto|].
  destruct Hphase as [Hph|[Hph|[Hph|Hph]]].
  - destruct (burst_arrived_step a w w' Hpos Hwf Hph Hc Ha Hcancel Htick);
      eauto.
  - destruct (first_batch_in_flight_step a w w' Hpos Hwf Hsub Hph Hc Ha
                Hcancel Htick); eauto.
  - destruct (second_batch_in_flight_step a w w' Hpos Hwf Hid0 Hid1 Hph Hc Ha
                Hcancel Htick); eauto.
  - right; right; right. by eapply burst_served_step.
Qed.

Lemma burst_pexec sched : forall w w',
  0 < second -> Forall internal sched ->
  wf second w -> burst w -> pexec second sched w = Some w' ->
  wf second w' /\ burst w'.
Proof.
  induction sched as [|a sched IH]; intros w w' Hpos Hsched Hwf Hb He;
    simpl in He.
  - by simplify_eq.
  - destruct (pstep second a w) as [w1|] eqn:Hs; [|done].
    apply Forall_cons in Hsched as [[Ha Hcancel] Hsched].
    apply (IH w1 w' Hpos Hsched); [|by eapply burst_step|done].
    eapply wf_step; [done|]. by apply pstep_step.
Qed.

End Burst.

Section Scenario.

Variable second : nat.

Lemma three_accepted r1 r2 r3 w w3 :
  wf second w -> queue w = [] ->
  exec second [Submit r1; Submit r2; Submit r3] w = Some w3 ->
  let t := length (heap w) in
  queue w3 = [t; t + 1; t + 2] /\ needs_processing w3 = true /\
  processor w3 = processor w /\ clock w3 = clock w /\
  timers w3 = timers w ++ [DSleep (clock w + 1 * second) t] /\
  heap w3 = heap w ++ [Task r1 false (TimeTime t) None;
                       Task r2 false (TimeTime (t + 1)) None;
                       Task r3 false (TimeTime (t + 2)) None] /\
  calls w3 = calls w ++ [AddWait t; AddWait (t + 1); AddWait (t + 2)].
Proof.
  intros Hwf Hq He.
  rewrite exec_cons, step_submit_ok in He;
    [|by apply (wf_lock second)|rewrite Hq; simpl; lia].
  rewrite exec_cons, step_submit_ok in He;
    [|done|simpl; rewrite Hq; simpl; lia].
  rewrite exec_cons, step_submit_ok in He;
    [|done|simpl; rewrite Hq; simpl; lia].
  simpl in He. injection He as <-. intros t. subst t.
  destruct w as [q l f p h pr ts cs ck lg]. simpl in Hq. subst q.
  unfold accepted. simpl. rewrite !length_app. simpl.
  replace (length h + 1 + 1) with (length h + 2) by lia.
  by rewrite <- !app_assoc.
Qed.

Lemma three_accepted_burst r1 r2 r3 w w3 :
  wf second w -> queue w = [] -> processor w = PWait ->
  exec second [Submit r1; Submit r2; Submit r3] w = Some w3 ->
  burst second (clock w) (length (heap w)) (length (calls w)) (timers w)
        r1 r2 r3 w3.
Proof.
  intros Hwf Hq Hp He.
  destruct (three_accepted r1 r2 r3 w w3 Hwf Hq He)
    as (Hq3 & Hf3 & Hp3 & Hck3 & Hts3 & Hh3 & Hcs3).
  unfold burst, burst_arrived, has_id, still_waiting, own_timer_pending,
    burst_timers.
  rewrite Hq3, Hf3, Hp3, Hck3, Hts3, Hh3, Hcs3.
  split; [|split; [done|left]].
  - split_and!; eexists.
    + split; [by rewrite lookup_app_r, Nat.sub_diag by lia|]. done.
    + split; [rewrite lookup_app_r by lia|].
      * by replace (length (heap w) + 1 - length (heap w)) with 1 by lia.
      * done.
    + split; [rewrite lookup_app_r by lia|].
      * by replace (length (heap w) + 2 - length (heap w)) with 2 by lia.
      * done.
  - split_and!; try done.
    + by rewrite lookup_app_r, Nat.sub_diag by lia.
    + by rewrite lookup_app_r, Nat.sub_diag by lia.
    + rewrite lookup_app_r by lia.
      by replace (length (calls w) + 1 - length (calls w)) with 1 by lia.
    + rewrite lookup_app_r by lia.
      by replace (length (calls w) + 2 - length (calls w)) with 2 by lia.
Qed.

(** C7 (amended).  Scenario C.  Three calls of [add_request] are made one
    after the other, with nothing else running in between, in a reachable
    world where the queue is empty and the consumer is waiting for the wake
    signal ([t0] is the time; [t], [t + 1], [t + 2] are the three tasks and
    [c], [c + 1], [c + 2] the three calls).  Then, for every prompt run from
    there without further submission or cancellation, and every world [w'] on
    it:
    - the three requests are enqueued in order and the wake signal is set;
      only the first submission has created a timer, due at [t0 + 1], and no
      timer is ever pending for the second or the third request;
    - before [t0 + 2] none of the three calls has returned, and once the
      consumer has run the first two requests are the batch in flight and
      the third is alone in the queue;
    - while the third is alone in the queue, the wake signal is clear only as
      long as the first request's timer is pending, which is no longer than
      until [t0 + 1]; when the signal is set, one of the timers has fired;
    - the first two requests complete together, and after [t0 + 2] their
      calls have returned their own results;
    - before [t0 + 4] the third request is not complete; between [t0 + 2]
      and [t0 + 4] it is the batch in flight, alone; after [t0 + 4] its call
      has returned its own result;
    - the run can be continued until the clock has passed [t0 + 4], and then
      the three calls have returned. *)
Theorem three_back_to_back r1 r2 r3 w w3 sched w' :
  0 < second ->
  reachable second w -> queue w = [] -> processor w = PWait ->
  exec second [Submit r1; Submit r2; Submit r3] w = Some w3 ->
  Forall internal sched -> pexec second sched w3 = Some w' ->
  let t0 := clock w in
  let t := length (heap w) in
  let c := length (calls w) in
  (queue w3 = [t; t + 1; t + 2] /\ needs_processing w3 = true /\
   timers w3 = timers w ++ [DSleep (t0 + 1 * second) t] /\
   forall k d o, timers w' !! k = Some (DSleep d o) -> o <= t) /\
  (clock w' < t0 + 2 * second ->
   calls w' !! c = Some (AddWait t) /\
   calls w' !! (c + 1) = Some (AddWait (t + 1)) /\
   calls w' !! (c + 2) = Some (AddWait (t + 2)) /\
   (queue w' = [t; t + 1; t + 2] /\ processor w' = PWait /\ clock w' = t0 \/
    queue w' = [t + 2] /\
    processor w' = PSleep (t0 + 2 * second) [t; t + 1])) /\
  (queue w' = [t + 2] ->
   (needs_processing w' = false ->
    timers w' !! length (timers w) = Some (DSleep (t0 + 1 * second) t) /\
    clock w' <= t0 + 1 * second) /\
   (needs_processing w' = true ->
    exists k d o, timers w3 !! k = Some (DSleep d o) /\
                  timers w' !! k = Some DDone)) /\
  ((is_complete t w' <-> is_complete (t + 1) w') /\
   (t0 + 2 * second < clock w' ->
    calls w' !! c = Some (AddReturned (Some ("Processed " +:+ r1))) /\
    calls w' !! (c + 1) = Some (AddReturned (Some ("Processed " +:+ r2))))) /\
  (clock w' < t0 + 4 * second ->
   ~ is_complete (t + 2) w' /\ calls w' !! (c + 2) = Some (AddWait (t + 2))) /\
  (t0 + 2 * second < clock w' < t0 + 4 * second ->
   queue w' = [] /\ processor w' = PSleep (t0 + 4 * second) [t + 2]) /\
  (t0 + 4 * second < clock w' ->
   calls w' !! (c + 2) = Some (AddReturned (Some ("Processed " +:+ r3)))) /\
  (exists more w'',
     Forall internal more /\ pexec second more w' = Some w'' /\
     clock w'' = Nat.max (clock w') (t0 + 4 * second + 1) /\
     calls w'' !! c = Some (AddReturned (Some ("Processed " +:+ r1))) /\
     calls w'' !! (c + 1) = Some (AddReturned (Some ("Processed " +:+ r2))) /\
     calls w'' !! (c + 2) = Some (AddReturned (Some ("Processed " +:+ r3)))).
Proof.
  intros Hpos Hr Hq Hp He Hsched Hrun t0 t c.
  pose proof (wf_reachable second w Hr) as Hwf.
  destruct (three_accepted r1 r2 r3 w w3 Hwf Hq He)
    as (Hq3 & Hf3 & _ & _ & Hts3 & _ & _).
  assert (Hwf3 : wf second w3) by (by eapply wf_exec).
  pose proof (three_accepted_burst r1 r2 r3 w w3 Hwf Hq Hp He) as Hb3.
  destruct (burst_pexec second t0 t c (timers w) r1 r2 r3 sched w3 w'
              Hpos Hsched Hwf3 Hb3 Hrun) as (Hwf' & Hb').
  assert (Hlast : exists more w'',
     Forall internal more /\ pexec second more w' = Some w'' /\
     clock w'' = Nat.max (clock w') (t0 + 4 * second + 1) /\
     calls w'' !! c = Some (AddReturned (Some ("Processed " +:+ r1))) /\
     calls w'' !! (c + 1) = Some (AddReturned (Some ("Processed " +:+ r2))) /\
     calls w'' !! (c + 2) = Some (AddReturned (Some ("Processed " +:+ r3)))).
  { destruct (time_passes second (t0 + 4 * second + 1 - clock w') w' Hpos Hwf')
      as (more & w'' & Hmore & Hrun' & Hck'').
    destruct (burst_pexec second t0 t c (timers w) r1 r2 r3 more w' w''
                Hpos Hmore Hwf' Hb' Hrun') as (_ & _ & _ & Hphase'').
    exists more, w''. split; [done|]. split; [done|]. split; [lia|].
    destruct Hphase'' as [Hph|[Hph|[Hph|Hph]]].
    - destruct Hph as (_ & _ & _ & ? & _). lia.
    - destruct Hph as (_ & _ & ? & _). lia.
    - destruct Hph as (_ & _ & ? & _). lia.
    - destruct Hph as (_ & _ & _ & _ & _ & _ & ? & ? & [_ [[_ ?]|?]]);
        [lia|done]. }
  destruct Hb' as (_ & Hsub & Hphase).
  fold t0 t in Hts3, Hq3.
  assert (Hpend : forall t', t' ∈ inflight w' ++ queue w' -> ~ is_complete t' w').
  { intros t' Hin (tk & Htk & Hd).
    destruct (wf_pending second w' Hwf' t' Hin) as (tk' & Htk' & Hd').
    congruence. }
  assert (Hinq : forall t' q, queue w' = q -> t' ∈ q -> ~ is_complete t' w').
  { intros t' q Hq' Hin. apply Hpend, elem_of_app. right. by rewrite Hq'. }
  assert (Hinf : forall t' d b, processor w' = PSleep d b -> t' ∈ b ->
                                ~ is_complete t' w').
  { intros t' d b Hp' Hin. apply Hpend, elem_of_app. left.
    unfold inflight. by rewrite Hp'. }
  unfold burst_arrived, first_batch_in_flight, second_batch_in_flight,
    burst_served, complete_by, still_waiting, has_returned, own_timer_pending,
    a_timer_fired, burst_timers in Hphase.
  fold t0 t c in Hphase. rewrite <- Hts3 in Hphase.
  split; [|split; [|split; [|split; [|split; [|split; [|split]]]]]];
    [| | | | | | |exact Hlast].
  - split; [done|]. split; [done|]. split; [done|].
    intros k d o Hk. apply Hsub in Hk. unfold burst_timers in Hk.
    apply lookup_app_Some in Hk as [Hk|[_ Hk]].
    + destruct (wf_timers second w Hwf k d o Hk) as (_ & Ho & _). fold t in Ho. lia.
    + destruct (k - length (timers w)) as [|n]; simplify_eq/=. lia.
  - intros Hlt.
    destruct Hphase as [Hph|[Hph|[Hph|Hph]]]; [| |lia|lia].
    + destruct Hph as (? & ? & ? & ? & ? & ? & ? & ?).
      split_and!; try done. by left.
    + destruct Hph as (? & ? & ? & ? & ? & ? & ?).
      split_and!; try done. by right.
  - intros Hq'.
    destruct Hphase as [Hph|[Hph|[Hph|Hph]]];
      [destruct Hph as [Hq'' _]; rewrite Hq'' in Hq'; simplify_eq; lia|
      |destruct Hph as [Hq'' _]; congruence
      |destruct Hph as [Hq'' _]; congruence].
    destruct Hph as (_ & _ & _ & _ & _ & _ & [(Hf & Hown & Hck)|(Hf & Hfired)]).
    + split; [done|congruence].
    + split; [congruence|done].
  - split.
    + destruct Hphase as [Hph|[Hph|[Hph|Hph]]].
      * destruct Hph as (Hq' & _).
        split; intros Hd; exfalso; revert Hd;
          apply (Hinq _ _ Hq'); set_solver.
      * destruct Hph as (_ & Hp' & _).
        split; intros Hd; exfalso; revert Hd;
          apply (Hinf _ _ _ Hp'); set_solver.
      * destruct Hph as (_ & _ & _ & _ & [? _] & [? _] & _). done.
      * destruct Hph as (_ & _ & _ & _ & ? & ? & _). done.
    + intros Hlt.
      destruct Hphase as [Hph|[Hph|[Hph|Hph]]].
      * destruct Hph as (_ & _ & _ & ? & _). lia.
      * destruct Hph as (_ & _ & ? & _). lia.
      * destruct Hph as (_ & _ & _ & _ & [_ [[_ ?]|?]] & [_ [[_ ?]|?]] & _);
          try lia. done.
      * destruct Hph as (_ & _ & _ & _ & _ & _ & ? & ? & _). done.
  - intros Hlt.
    destruct Hphase as [Hph|[Hph|[Hph|Hph]]].
    + destruct Hph as (Hq' & _ & _ & _ & _ & _ & _ & ?).
      split; [|done]. apply (Hinq _ _ Hq'). set_solver.
    + destruct Hph as (Hq' & _ & _ & _ & _ & ? & _).
      split; [|done]. apply (Hinq _ _ Hq'). set_solver.
    + destruct Hph as (_ & Hp' & _ & _ & _ & _ & ?).
      split; [|done]. apply (Hinf _ _ _ Hp'). set_solver.
    + destruct Hph as (_ & _ & _ & ? & _). lia.
  - intros Hlt.
    destruct Hphase as [Hph|[Hph|[Hph|Hph]]].
    + destruct Hph as (_ & _ & _ & ? & _). lia.
    + destruct Hph as (_ & _ & ? & _). lia.
    + by destruct Hph as (? & ? & _).
    + destruct Hph as (_ & _ & _ & ? & _). lia.
  - intros Hlt.
    destruct Hphase as [Hph|[Hph|[Hph|Hph]]].
    + destruct Hph as (_ & _ & _ & ? & _). lia.
    + destruct Hph as (_ & _ & ? & _). lia.
    + destruct Hph as (_ & _ & ? & _). lia.
    + destruct Hph as (_ & _ & _ & _ & _ & _ & _ & _ & [_ [[_ ?]|?]]);
        [lia|done].
Qed.

End Scenario.

(** ** The demonstration in [main] *)

(** [main], suspended at one of its awaits (named by their lines), or
    finished. *)
Inductive main_pc :=
| M89                      (* gather(client_request "A", client_request "B") *)
| M94 (wake_at : nat)      (* asyncio.sleep(1) *)
| M97                      (* client_request "C" *)
| M99 (wake_at : nat)      (* asyncio.sleep(1) *)
| M102                     (* gather of "D", "E" and "F" *)
| MEnd.

(** The whole program: [main], the client tasks that [gather] has created and
    that have not run yet (they start in this order), and the world of the
    server. *)
Record program := Program {
  pc : main_pc;
  starting : list string;
  state : world }.

(** A call of [add_request] is over, and with it its [client_request]. *)
Definition over (c : call) : bool :=
  match c with
  | AddWait _ => false
  | _ => true
  end.

(** The clients [main] is waiting for have all finished. *)
Definition gathered (p : program) : bool :=
  match starting p with
  | [] => forallb over (calls (state p))
  | _ :: _ => false
  end.

Definition main_ready (p : program) : bool :=
  match pc p with
  | M89 | M97 | M102 => gathered p
  | M94 wake_at | M99 wake_at => wake_at <=? clock (state p)
  | MEnd => false
  end.

(** [main] runs from one await to the next. *)
Definition main_step (second : nat) (p : program) : option program :=
  if main_ready p then
    match pc p with
    | M89 => Some (Program (M94 (clock (state p) + 1 * second)) [] (state p))
    | M94 _ =>
        match step second (Submit "C") (state p) with
        | Some w => Some (Program M97 [] w)
        | None => None
        end
    | M97 => Some (Program (M99 (clock (state p) + 1 * second)) [] (state p))
    | M99 _ => Some (Program M102 ["D"; "E"; "F"] (state p))
    | M102 =>
        match step second Cancel (state p) with
        | Some w => Some (Program MEnd [] w)
        | None => None
        end
    | MEnd => None
    end
  else None.

Inductive program_action :=
| PMain                 (* main returns from its await *)
| PStart                (* the next client task created by gather starts *)
| PConsume
| PFire (k : nat)
| PResume (c : nat)
| PTick.

(** One turn of the event loop.  The clock advances only when nothing is
    ready; when [main] has returned the program is over. *)
Definition program_step (second : nat) (a : program_action) (p : program)
  : option program :=
  match pc p with
  | MEnd => None
  | _ =>
      match a with
      | PMain => main_step second p
      | PStart =>
          match starting p with
          | [] => None
          | request_id :: rest =>
              match step second (Submit request_id) (state p) with
              | Some w => Some (Program (pc p) rest w)
              | None => None
              end
          end
      | PConsume =>
          Program (pc p) (starting p) <$> step second Consume (state p)
      | PFire k =>
          Program (pc p) (starting p) <$> step second (Fire k) (state p)
      | PResume c =>
          Program (pc p) (starting p) <$> step second (Resume c) (state p)
      | PTick =>
          if quiescent (state p) && negb (main_ready p)
             && match starting p with [] => true | _ :: _ => false end
          then Program (pc p) (starting p) <$> step second Tick (state p)
          else None
      end
  end.

Fixpoint program_exec (second : nat) (sched : list program_action) (p : program)
  : option program :=
  match sched with
  | [] => Some p
  | a :: rest =>
      match program_step second a p with
      | Some p' => program_exec second rest p'
      | None => None
      end
  end.

(** Lines 80-89: the server is created, the consumer is started and waits,
    the tasks of "A" and "B" are created. *)
Definition main_start : program := Program M89 ["A"; "B"] init.

(** The lines the six clients print when their calls are over. *)
Definition reports (p : program) : list (option string) :=
  zip_with client_request_report ["A"; "B"; "C"; "D"; "E"; "F"]
           (calls (state p)).

(** *** All the turns a program can take *)

Definition candidates (p : program) : list program_action :=
  [PMain; PStart; PConsume; PTick]
  ++ (PFire <$> seq 0 (length (timers (state p))))
  ++ (PResume <$> seq 0 (length (calls (state p)))).

Definition successors (second : nat) (p : program) : list program :=
  omap (fun a => program_step second a p) (candidates p).

#[local] Instance wall_time_eq_dec : EqDecision wall_time.
Proof. solve_decision. Defined.
#[local] Instance task_eq_dec : EqDecision task.
Proof. solve_decision. Defined.
#[local] Instance consumer_eq_dec : EqDecision consumer.
Proof. solve_decision. Defined.
#[local] Instance delayed_eq_dec : EqDecision delayed.
Proof. solve_decision. Defined.
#[local] Instance call_eq_dec : EqDecision call.
Proof. solve_decision. Defined.
#[local] Instance event_eq_dec : EqDecision event.
Proof. solve_decision. Defined.
#[local] Instance world_eq_dec : EqDecision world.
Proof. solve_decision. Defined.
#[local] Instance main_pc_eq_dec : EqDecision main_pc.
Proof. solve_decision. Defined.
#[local] Instance program_eq_dec : EqDecision program.
Proof. solve_decision. Defined.

(** What is checked in every program state: nobody was rejected; a state
    before the end has a next turn; at the end all six clients have their
    own answers, 11 time units have passed, and the consumer is cancelled
    with an empty queue. *)
Definition main_ok (p : program) : bool :=
  forallb (fun c => match c with AddRaised _ => false | _ => true end)
          (calls (state p))
  && match pc p with
     | MEnd =>
         bool_decide (reports p =
           [Some "Client A received: Processed A";
            Some "Client B received: Processed B";
            Some "Client C received: Processed C";
            Some "Client D received: Processed D";
            Some "Client E received: Processed E";
            Some "Client F received: Processed F"])
         && (clock (state p) =? 11)
         && bool_decide (processor (state p) = PCancelled)
         && bool_decide (queue (state p) = [])
     | _ => match successors 1 p with [] => false | _ :: _ => true end
     end.

(** The states after 0, 1, 2, ... turns are all [main_ok], and there are no
    more states after at most [fuel] turns. *)
Fixpoint all_ok (fuel : nat) (l : list program) : bool :=
  match l with
  | [] => true
  | _ :: _ =>
      forallb main_ok l
      && match fuel with
         | 0 => false
         | S n => all_ok n (remove_dups (l ≫= successors 1))
         end
  end.

Lemma successors_complete second a p p' :
  program_step second a p = Some p' -> p' ∈ successors second p.
Proof.
  intros Hs. unfold successors. apply list_elem_of_omap.
  exists a. split; [|done]. unfold candidates.
  destruct a as [| | |k|c|]; try (set_solver).
  - apply elem_of_app. right. apply elem_of_app. left.
    apply list_elem_of_fmap. exists k. split; [done|]. apply elem_of_seq.
    unfold program_step in Hs. destruct (pc p); try done;
      (rewrite step_fire in Hs;
       destruct (timers (state p) !! k) eqn:E; [|done];
       apply lookup_lt_Some in E; lia).
  - apply elem_of_app. right. apply elem_of_app. right.
    apply list_elem_of_fmap. exists c. split; [done|]. apply elem_of_seq.
    unfold program_step in Hs. destruct (pc p); try done;
      (rewrite step_resume in Hs;
       destruct (calls (state p) !! c) eqn:E; [|done];
       apply lookup_lt_Some in E; lia).
Qed.

Lemma all_ok_cons n x l :
  all_ok (S n) (x :: l) =
    forallb main_ok (x :: l)
    && all_ok n (remove_dups ((x :: l) ≫= successors 1)).
Proof. done. Qed.

Lemma all_ok_sound fuel : forall l sched p0 p,
  all_ok fuel l = true -> p0 ∈ l -> program_exec 1 sched p0 = Some p ->
  main_ok p = true /\ length sched < fuel.
Proof.
  induction fuel as [|n IH]; intros l sched p0 p Hok Hin He.
  - destruct l; [by apply elem_of_nil in Hin|]. simpl in Hok.
    by rewrite andb_false_r in Hok.
  - destruct l as [|x l]; [by apply elem_of_nil in Hin|].
    rewrite all_ok_cons in Hok. apply andb_prop in Hok as [Hall Hnext].
    destruct sched as [|a sched]; simpl in He.
    + simplify_eq. split; [|simpl; lia].
      rewrite forallb_forall in Hall. apply Hall. by apply list_elem_of_In.
    + destruct (program_step 1 a p0) as [p1|] eqn:Hs; [|done].
      destruct (IH _ sched p1 p Hnext) as [Hp Hlen]; [|done|].
      * apply elem_of_remove_dups, list_elem_of_bind. exists p0.
        split; [by eapply successors_complete|done].
      * split; [done|]. simpl. lia.
Qed.

(** X11.  The demonstration in [main], under every prompt schedule of the
    event loop (1 clock tick per time unit): no client is ever told
    "Server too busy!"; a run that is not over always has a next turn, and no
    run has more than 38 turns, so every run ends; and at the end each of the
    six clients has printed "Client <id> received: Processed <id>" for its
    own id, 11 time units have passed, the queue is empty and the consumer is
    cancelled. *)
Theorem main_serves_all_clients sched p :
  program_exec 1 sched main_start = Some p ->
  length sched < 39 /\
  (forall c msg, calls (state p) !! c <> Some (AddRaised msg)) /\
  (pc p <> MEnd -> exists a p', program_step 1 a p = Some p') /\
  (pc p = MEnd ->
   reports p =
     [Some "Client A received: Processed A";
      Some "Client B received: Processed B";
      Some "Client C received: Processed C";
      Some "Client D received: Processed D";
      Some "Client E received: Processed E";
      Some "Client F received: Processed F"] /\
   clock (state p) = 11 /\ processor (state p) = PCancelled /\
   queue (state p) = []).
Proof.
  intros He.
  assert (Hall : all_ok 39 [main_start] = true) by (vm_compute; reflexivity).
  destruct (all_ok_sound 39 [main_start] sched main_start p Hall) as [Hok Hlen];
    [by left|done|].
  split; [done|]. unfold main_ok in Hok. apply andb_prop in Hok as [Hcalls Hpc].
  split; [|split].
  - intros c msg Hc. rewrite forallb_forall in Hcalls.
    assert (Hin : In (AddRaised msg) (calls (state p))).
    { apply list_elem_of_In. by eapply list_elem_of_lookup_2. }
    by apply Hcalls in Hin.
  - intros Hne.
    assert (Hsucc : exists p' l, successors 1 p = p' :: l).
    { destruct (pc p); [..|congruence];
        (destruct (successors 1 p) as [|p' l];
         [discriminate Hpc|exists p', l; reflexivity]). }
    destruct Hsucc as (p' & l & E).
    assert (Hin : p' ∈ successors 1 p) by (rewrite E; left).
    apply list_elem_of_omap in Hin as (a & _ & Ha). by exists a, p'.
  - intros Hend. rewrite Hend in Hpc.
    apply andb_prop in Hpc as [Hpc Hq]. apply andb_prop in Hpc as [Hpc Hp].
    apply andb_prop in Hpc as [Hr Hck].
    apply bool_decide_eq_true in Hr, Hp, Hq. apply Nat.eqb_eq in Hck.
    split; [exact Hr|]. split; [exact Hck|]. split; [exact Hp|exact Hq].
Qed.

(** ** The further properties at concrete worlds *)

(** The consumer has taken a batch from a full queue. *)
Definition four_then_consume : world :=
  Eval vm_compute in default init (step 1 Consume after_four_submissions).

(** A lone request "A", and the world after its own timer has woken the
    consumer, the request was processed and the call has returned, at
    4 time units. *)
Definition lone_submitted : world :=
  Eval vm_compute in default init (step 1 (Submit "A") init).

Definition lone_schedule : list action :=
  [Tick; Fire 0; Consume; Tick; Tick; Consume; Resume 0; Tick].

Definition lone_served : world :=
  Eval vm_compute in default init (exec 1 lone_schedule lone_submitted).

(** Two requests are batched; three more arrive during processing; the next
    batch leaves the last one in the queue after all timers have fired. *)
Definition starving_schedule : list action :=
  [Submit "A"; Submit "B"; Consume; Submit "C"; Submit "D"; Submit "E";
   Tick; Fire 0; Fire 1; Tick; Consume; Resume 0; Resume 1;
   Tick; Tick; Consume; Resume 2; Resume 3].

Definition starved : world :=
  Eval vm_compute in default init (exec 1 starving_schedule init).

Definition starved_later : world :=
  Eval vm_compute in default init (exec 1 [Tick; Tick; Tick] starved).

(** "A" and "B" have been submitted and taken as the first batch. *)
Definition first_two_batched : world :=
  Eval vm_compute in
    default init (exec 1 [Submit "A"; Submit "B"; Consume] init).

Lemma reachable_starved : reachable 1 starved.
Proof. exists starving_schedule. vm_compute. reflexivity. Qed.

Lemma wake_signal_means_work_witness :
  reachable 1 after_four_submissions /\
  step 1 Consume after_four_submissions = Some four_then_consume /\
  (needs_processing after_four_submissions = true ->
   queue after_four_submissions <> []).
Proof.
  split; [apply reachable_after_four_submissions|].
  split; [vm_compute; reflexivity|].
  apply (wake_signal_means_work 1 after_four_submissions four_then_consume);
    [apply reachable_after_four_submissions|vm_compute; reflexivity].
Defined.

Lemma completion_in_arrival_order_witness :
  reachable 1 first_batch_done /\
  reverse (result_refs (log first_batch_done))
    = seq 0 (length (result_refs (log first_batch_done))).
Proof.
  split; [apply reachable_first_batch_done|].
  apply (completion_in_arrival_order 1 first_batch_done).
  apply reachable_first_batch_done.
Defined.

Lemma tasks_are_stable_witness :
  reachable 1 first_batch_taken /\
  exec 1 [Tick; Fire 0; Tick; Consume] first_batch_taken
    = Some first_batch_done /\
  heap first_batch_taken !! 0 = Some (Task "D" false (TimeTime 0) None) /\
  exists tk', heap first_batch_done !! 0 = Some tk' /\
    task_id tk' = "D" /\ task_time tk' = TimeTime 0 /\
    (false = true -> tk' = Task "D" false (TimeTime 0) None).
Proof.
  split; [apply reachable_first_batch_taken|].
  split; [vm_compute; reflexivity|]. split; [reflexivity|].
  apply (tasks_are_stable 1 first_batch_taken [Tick; Fire 0; Tick; Consume]
           first_batch_done 0 (Task "D" false (TimeTime 0) None));
    [apply reachable_first_batch_taken|vm_compute; reflexivity|reflexivity].
Defined.

Lemma call_gets_own_result_witness :
  reachable 1 init /\
  step 1 (Submit "A") init = Some lone_submitted /\
  exec 1 lone_schedule lone_submitted = Some lone_served /\
  if 3 <=? length (queue init)
  then calls lone_served !! length (calls init)
       = Some (AddRaised "Server too busy!")
  else (exists tk, heap lone_served !! length (heap init) = Some tk /\
                   task_id tk = "A") /\
       (calls lone_served !! length (calls init)
          = Some (AddWait (length (heap init))) \/
        calls lone_served !! length (calls init)
          = Some (AddReturned (Some ("Processed " +:+ "A")))).
Proof.
  assert (Hr : reachable 1 init) by (by exists []).
  split; [exact Hr|]. split; [vm_compute; reflexivity|].
  split; [vm_compute; reflexivity|].
  apply (call_gets_own_result 1 "A" init lone_submitted lone_schedule
           lone_served Hr); vm_compute; reflexivity.
Defined.

Lemma lock_is_never_contended_witness :
  reachable 1 during_processing /\ queue_lock during_processing = false.
Proof.
  split; [apply reachable_during_processing|].
  apply (lock_is_never_contended 1 during_processing).
  apply reachable_during_processing.
Defined.

Lemma remainder_is_never_served_witness :
  reachable 1 starved /\ processor starved = PWait /\
  needs_processing starved = false /\ queue starved = [4] /\
  exec 1 [Tick; Tick; Tick] starved = Some starved_later /\
  queue starved_later = queue starved /\ heap starved_later = heap starved /\
  needs_processing starved_later = false.
Proof.
  split; [apply reachable_starved|]. split; [reflexivity|].
  split; [reflexivity|]. split; [reflexivity|].
  split; [vm_compute; reflexivity|].
  destruct (remainder_is_never_served 1 starved [Tick; Tick; Tick] starved_later)
    as (H1 & H2 & H3 & _).
  - apply reachable_starved.
  - reflexivity.
  - reflexivity.
  - intros [|[|k]] d o; vm_compute; congruence.
  - repeat constructor.
  - vm_compute. reflexivity.
  - done.
Defined.

Lemma prompt_schedules_progress_witness :
  reachable 1 first_batch_taken /\
  exists a w', not_submit a /\ a <> Cancel /\
               pstep 1 a first_batch_taken = Some w'.
Proof.
  split; [apply reachable_first_batch_taken|].
  apply (prompt_schedules_progress 1 first_batch_taken).
  apply reachable_first_batch_taken.
Defined.

Lemma lone_request_is_served_witness :
  reachable 1 init /\ queue init = [] /\ processor init <> PCancelled /\
  step 1 (Submit "A") init = Some lone_submitted /\
  Forall (fun a => a <> Cancel) lone_schedule /\
  pexec 1 lone_schedule lone_submitted = Some lone_served /\
  clock init + (1 + 2) * 1 < clock lone_served /\
  calls lone_served !! length (calls init)
    = Some (AddReturned (Some ("Processed " +:+ "A"))).
Proof.
  assert (Hr : reachable 1 init) by (by exists []).
  assert (Hs : Forall (fun a => a <> Cancel) lone_schedule).
  { repeat constructor; discriminate. }
  split; [exact Hr|]. split; [reflexivity|]. split; [discriminate|].
  split; [vm_compute; reflexivity|]. split; [exact Hs|].
  split; [vm_compute; reflexivity|].
  assert (Hlt : clock init + (1 + 2) * 1 < clock lone_served)
    by (vm_compute; lia).
  split; [exact Hlt|].
  apply (lone_request_is_served 1 "A" init lone_submitted lone_schedule
           lone_served Hr eq_refl); [discriminate| | | |exact Hlt].
  - vm_compute. reflexivity.
  - exact Hs.
  - vm_compute. reflexivity.
Defined.

Lemma client_request_reports_witness :
  reachable 1 after_four_submissions /\
  step 1 (Submit "E") after_four_submissions
    = Some (rejected after_four_submissions) /\
  exists c,
    calls (rejected after_four_submissions)
      !! length (calls after_four_submissions) = Some c /\
    if 3 <=? length (queue after_four_submissions)
    then client_request_report "E" c
         = Some ("Client " +:+ "E" +:+ " got error: Server too busy!")
    else client_request_report "E" c = None \/
         client_request_report "E" c
         = Some ("Client " +:+ "E" +:+ " received: Processed " +:+ "E").
Proof.
  split; [apply reachable_after_four_submissions|].
  split; [vm_compute; reflexivity|].
  apply (client_request_reports 1 "E" after_four_submissions
           (rejected after_four_submissions) []);
    [apply reachable_after_four_submissions|vm_compute; reflexivity|reflexivity].
Defined.

Lemma main_serves_all_clients_witness :
  program_exec 1 [PStart; PStart; PConsume] main_start
    = Some (Program M89 [] first_two_batched) /\
  length [PStart; PStart; PConsume] < 39 /\
  forall c msg, calls first_two_batched !! c <> Some (AddRaised msg).
Proof.
  split; [vm_compute; reflexivity|].
  destruct (main_serves_all_clients [PStart; PStart; PConsume]
              (Program M89 [] first_two_batched)) as (H1 & H2 & _).
  - vm_compute. reflexivity.
  - split; [exact H1|exact H2].
Defined.

(** ** Liveness and scenario C at concrete worlds *)

(** Scenario C run to the end: the consumer takes "D" and "E", the timer of
    "D" fires at 1, the first batch is done at 2 and "F" is taken, "F" is done
    at 4. *)
Definition burst_schedule : list action :=
  [Consume; Tick; Fire 0; Tick; Consume; Resume 0; Resume 1;
   Tick; Tick; Consume; Resume 2; Tick].

Definition all_three_served : world :=
  Eval vm_compute in default init (pexec 1 burst_schedule three_queued).










Lemma three_back_to_back_witness :
  0 < 1 /\ reachable 1 init /\ queue init = [] /\ processor init = PWait /\
  exec 1 [Submit "D"; Submit "E"; Submit "F"] init = Some three_queued /\
  Forall internal burst_schedule /\
  pexec 1 burst_schedule three_queued = Some all_three_served /\
  clock init + 4 * 1 < clock all_three_served /\
  timers three_queued
    = timers init ++ [DSleep (clock init + 1 * 1) (length (heap init))] /\
  calls all_three_served !! length (calls init)
    = Some (AddReturned (Some ("Processed " +:+ "D"))) /\
  calls all_three_served !! (length (calls init) + 1)
    = Some (AddReturned (Some ("Processed " +:+ "E"))) /\
  calls all_three_served !! (length (calls init) + 2)
    = Some (AddReturned (Some ("Processed " +:+ "F"))).
Proof.
  assert (Hpos : 0 < 1) by lia.
  assert (Hr : reachable 1 init) by (by exists []).
  assert (H1 : exec 1 [Submit "D"; Submit "E"; Submit "F"] init
               = Some three_queued) by (vm_compute; reflexivity).
  assert (Hs : Forall internal burst_schedule).
  { repeat constructor; discriminate. }
  assert (H2 : pexec 1 burst_schedule three_queued = Some all_three_served)
    by (vm_compute; reflexivity).
  assert (Hlt : clock init + 4 * 1 < clock all_three_served)
    by (vm_compute; lia).
  destruct (three_back_to_back 1 "D" "E" "F" init three_queued burst_schedule
              all_three_served Hpos Hr eq_refl eq_refl H1 Hs H2)
    as ((_ & _ & Hts & _) & _ & _ & (_ & Hfirst) & _ & _ & Hthird & _).
  split; [exact Hpos|]. split; [exact Hr|]. split; [reflexivity|].
  split; [reflexivity|]. split; [exact H1|]. split; [exact Hs|].
  split; [exact H2|]. split; [exact Hlt|]. split; [exact Hts|].
  assert (Hlt2 : clock init + 2 * 1 < clock all_three_served)
    by (vm_compute; lia).
  destruct (Hfirst Hlt2) as [HD HE].
  split; [exact HD|]. split; [exact HE|]. exact (Hthird Hlt).
Defined.
